(** * RedshiftBulkInsert: a buffered bulk loader, verified against its source

    A shallow embedding of [lib/RedshiftBulkInsert.js].  Rows are encoded
    into delimited lines and appended to a local log file; on a row-count
    threshold or an idle timeout the file is rotated, read back, uploaded
    to S3 and loaded into Redshift with a COPY command.

    JavaScript data is modelled as follows.
    - Strings are [string]; [+] on strings is [++].
    - Integral numbers (row counts, [Date.now()], [process.pid], timer
      periods) are [Z]; they stay far below 2^53, where [++] and [--] on
      a double are exact.
    - A row value is a [value]; a number stored in a row is a [number],
      given by the decimal digits that [Number::toString] prints.
    - The object [this] is a record [Loader]; the host (clock, timers,
      outstanding I/O, the file writer, the event listeners) is a record
      [World], and every method is a computation in the state monad [M]
      over [World].
    - A bound callback handed to an asynchronous call is a constructor of
      [callback]; the host runs it later through [invoke]. *)

From Stdlib Require Import ZArith List Bool Lia.
From Stdlib Require Import Strings.String Strings.Ascii.
From Stdlib Require Import Numbers.DecimalString Numbers.DecimalZ Numbers.DecimalN.
Import ListNotations.

Open Scope string_scope.
Open Scope Z_scope.

(** ** Module constants *)

Definition DELIMITER : string := "|".
Definition ESCAPE : string := "\".
Definition NEWLINE : string := String (ascii_of_nat 10) "".
Definition NULL : string := "\N".
Definition SUFFIX : string := ".log".

(** ** JavaScript values that a row can hold *)

(** A double, as [Number::toString] sees it.  A finite non-zero number is
    [neg], the digits [d1 .. dk] of its shortest decimal representation
    and the exponent [n], with value [0.d1..dk * 10^n]. *)
Inductive number : Type :=
| NaN
| Infinity (neg : bool)
| Zero (neg : bool)
| Finite (neg : bool) (digits : list nat) (n : Z).

Inductive value : Type :=
| JNull
| JUndefined
| JString (s : string)
| JNumber (x : number)
| JBoolean (b : bool).

Definition digit_char (d : nat) : ascii := ascii_of_nat (48 + Nat.modulo d 10).

Fixpoint digits_to_string (ds : list nat) : string :=
  match ds with
  | [] => ""
  | d :: ds' => String (digit_char d) (digits_to_string ds')
  end.

Fixpoint zeros (k : nat) : string :=
  match k with
  | O => ""
  | S k' => String "0"%char (zeros k')
  end.

(** Decimal rendering of an integer, [-] for a negative one. *)
Definition Z_toString (z : Z) : string := NilEmpty.string_of_int (Z.to_int z).

(** [Number::toString(x)] in radix 10 (ECMA-262, 6.1.6.1.20). *)
Definition Number_toString (x : number) : string :=
  match x with
  | NaN => "NaN"
  | Zero _ => "0"
  | Infinity neg => (if neg then "-" else "") ++ "Infinity"
  | Finite neg ds n =>
      let k := Z.of_nat (List.length ds) in
      let e := n - 1 in
      let body :=
        if (k <=? n) && (n <=? 21) then
          digits_to_string ds ++ zeros (Z.to_nat (n - k))
        else if (0 <? n) && (n <=? 21) then
          digits_to_string (firstn (Z.to_nat n) ds) ++ "."
            ++ digits_to_string (skipn (Z.to_nat n) ds)
        else if (-6 <? n) && (n <=? 0) then
          "0." ++ zeros (Z.to_nat (- n)) ++ digits_to_string ds
        else
          digits_to_string (firstn 1 ds)
            ++ (match skipn 1 ds with
                | [] => ""
                | rest => "." ++ digits_to_string rest
                end)
            ++ "e" ++ (if e <? 0 then "-" else "+") ++ Z_toString (Z.abs e)
      in (if neg then "-" else "") ++ body
  end.

(** [value + ''] for a value that is neither null, undefined nor a string. *)
Definition ToString (v : value) : string :=
  match v with
  | JNull => "null"
  | JUndefined => "undefined"
  | JString s => s
  | JNumber x => Number_toString x
  | JBoolean b => if b then "true" else "false"
  end.

(** [s.replace(/c/g, by)] for a pattern that is the single literal
    character [c] and a replacement [by] without [$]. *)
Fixpoint replace_all (c : ascii) (by_ : string) (s : string) : string :=
  match s with
  | EmptyString => EmptyString
  | String a s' =>
      (if Ascii.eqb a c then by_ else String a EmptyString) ++ replace_all c by_ s'
  end.

(** Whether the character [c] occurs in [s]. *)
Fixpoint occurs (c : ascii) (s : string) : bool :=
  match s with
  | EmptyString => false
  | String a s' => Ascii.eqb a c || occurs c s'
  end.

(** [Array.prototype.join] on an array of strings. *)
Definition join (sep : string) (xs : list string) : string := String.concat sep xs.

(** ** The line encoder *)

Definition _escapeValue (v : value) : string :=
  match v with
  | JNull | JUndefined => NULL
  | JString s => replace_all "|"%char "\|" (replace_all "\"%char "\\" s)
  | _ => ToString v ++ ""
  end.

(** The [for] loop of [_rowToLine]: [i] runs up to [row.length], and
    [row[i]] of a missing index is [undefined]. *)
Fixpoint _rowToLine_loop (row : list value) (i : nat) (steps : nat)
  (lineBuff : list string) : list string :=
  match steps with
  | O => lineBuff
  | S steps' =>
      let value := nth i row JUndefined in
      let value := _escapeValue value in
      _rowToLine_loop row (S i) steps' (lineBuff ++ [value])
  end.

Definition _rowToLine (row : list value) : string :=
  let lineBuff := _rowToLine_loop row 0 (List.length row) [] in
  let line := join DELIMITER lineBuff in
  line.

(** The line format in the words of the interface description: a null or
    absent field is the token \N, and inside a string a backslash becomes
    two backslashes and a bar becomes backslash-bar. *)
Definition escape_char (a : ascii) : string :=
  if Ascii.eqb a "\"%char then "\\"
  else if Ascii.eqb a "|"%char then "\|"
  else String a "".

Fixpoint escape_string (s : string) : string :=
  match s with
  | EmptyString => EmptyString
  | String a s' => escape_char a ++ escape_string s'
  end.

Definition encode_field (v : value) : string :=
  match v with
  | JNull | JUndefined => "\N"
  | JString s => escape_string s
  | JNumber x => Number_toString x
  | JBoolean b => if b then "true" else "false"
  end.

Definition encode_line (row : list value) : string :=
  String.concat "|" (map encode_field row).


(** ** The loader object and its host *)

(** The [err] argument of a callback is [None] for null or undefined and
    [Some e] for an error. *)
Definition error := string.

(** The second argument of a completion callback: the file body, the S3
    response or the query result; [None] when the host passes nothing. *)
Definition payload := option string.

(** The options object given to the constructor; an optional numeric
    option that is absent or not a number is [None]. *)
Record Options : Type := {
  opt_pathToLogs : string;
  opt_tableName : string;
  opt_fields : list string;
  opt_idleFlushPeriod : option Z;
  opt_threshold : option Z;
  opt_awsBucketName : string;
  opt_awsAccessKeyId : string;
  opt_awsSecretAccessKey : string
}.

(** The fields of [this].  [ref] is the handle of the idle timer armed
    last; [self] stands for the identity of the object. *)
Record Loader : Type := {
  self : nat;
  _pid : Z;
  _suffix : string;
  _tableName : string;
  _fields : list string;
  _pathToLogs : string;
  _idleFlushPeriod : Z;
  _threshold : Z;
  _awsBucketName : string;
  _awsAccessKeyId : string;
  _awsSecretAccessKey : string;
  _numberOfEventsInFile : Z;
  activeFlushOps : Z;
  _fileName : string;
  ref : nat
}.

Definition set_numberOfEventsInFile (n : Z) (l : Loader) : Loader :=
  {| self := self l; _pid := _pid l; _suffix := _suffix l;
     _tableName := _tableName l; _fields := _fields l;
     _pathToLogs := _pathToLogs l; _idleFlushPeriod := _idleFlushPeriod l;
     _threshold := _threshold l; _awsBucketName := _awsBucketName l;
     _awsAccessKeyId := _awsAccessKeyId l;
     _awsSecretAccessKey := _awsSecretAccessKey l;
     _numberOfEventsInFile := n; activeFlushOps := activeFlushOps l;
     _fileName := _fileName l; ref := ref l |}.

Definition set_activeFlushOps (n : Z) (l : Loader) : Loader :=
  {| self := self l; _pid := _pid l; _suffix := _suffix l;
     _tableName := _tableName l; _fields := _fields l;
     _pathToLogs := _pathToLogs l; _idleFlushPeriod := _idleFlushPeriod l;
     _threshold := _threshold l; _awsBucketName := _awsBucketName l;
     _awsAccessKeyId := _awsAccessKeyId l;
     _awsSecretAccessKey := _awsSecretAccessKey l;
     _numberOfEventsInFile := _numberOfEventsInFile l; activeFlushOps := n;
     _fileName := _fileName l; ref := ref l |}.

Definition set_fileName (f : string) (l : Loader) : Loader :=
  {| self := self l; _pid := _pid l; _suffix := _suffix l;
     _tableName := _tableName l; _fields := _fields l;
     _pathToLogs := _pathToLogs l; _idleFlushPeriod := _idleFlushPeriod l;
     _threshold := _threshold l; _awsBucketName := _awsBucketName l;
     _awsAccessKeyId := _awsAccessKeyId l;
     _awsSecretAccessKey := _awsSecretAccessKey l;
     _numberOfEventsInFile := _numberOfEventsInFile l;
     activeFlushOps := activeFlushOps l;
     _fileName := f; ref := ref l |}.

Definition set_ref (h : nat) (l : Loader) : Loader :=
  {| self := self l; _pid := _pid l; _suffix := _suffix l;
     _tableName := _tableName l; _fields := _fields l;
     _pathToLogs := _pathToLogs l; _idleFlushPeriod := _idleFlushPeriod l;
     _threshold := _threshold l; _awsBucketName := _awsBucketName l;
     _awsAccessKeyId := _awsAccessKeyId l;
     _awsSecretAccessKey := _awsSecretAccessKey l;
     _numberOfEventsInFile := _numberOfEventsInFile l;
     activeFlushOps := activeFlushOps l;
     _fileName := _fileName l; ref := h |}.

(** The callbacks the loader builds with [_.bind]; the bound arguments
    are the constructor's arguments, the remaining [(err, data)] come
    from the host on completion. *)
Inductive callback : Type :=
| Bind_sendToS3 (fileName : string) (start : Z)
| Bind_onSentToS3 (fileName : string) (start : Z)
| Bind_onRemoved (start : Z)
| Bind_onSentCopyToRedshift (start : Z).

(** The asynchronous calls the loader makes. *)
Inductive request : Type :=
| ReadFile (path : string)
| PutObject (Body : payload) (Key : string) (Bucket : string)
| Unlink (path : string)
| Query (sql : string).

(** One [this.emit('flush', a1, a2, a3, a4, a5)], argument by argument;
    [a5] is the identity of the object passed. *)
Record FlushEvent : Type := {
  arg_err : option error;
  arg_result : payload;
  arg_third : string;
  arg_start : Z;
  arg_loader : nat
}.

(** The host.  [timers] are the pending [setTimeout] handles, every one
    bound to [flush]; [pending] are the outstanding asynchronous calls
    with their callbacks; [target] and [writes] are the file writer;
    [disk] lists the log files present (a path appears once written to,
    and disappears when an unlink of it completes without error);
    [emitted] and [logged] collect the [flush] events and the
    [logger.error] calls, oldest first; [completed] is the history of the
    asynchronous calls that have called back. *)
Record Completion : Type := {
  done_request : request;
  done_callback : callback;
  done_err : option error;
  done_data : payload
}.

Record World : Type := {
  this : Loader;
  now : Z;
  timers : list nat;
  next_handle : nat;
  pending : list (nat * (request * callback));
  next_request : nat;
  target : string;
  writes : list (string * string);
  ended : bool;
  disk : list string;
  emitted : list FlushEvent;
  logged : list error;
  completed : list Completion
}.

Definition with_this (f : Loader -> Loader) (w : World) : World :=
  {| this := f (this w); now := now w; timers := timers w;
     next_handle := next_handle w; pending := pending w;
     next_request := next_request w; target := target w;
     writes := writes w; ended := ended w; disk := disk w;
     emitted := emitted w; logged := logged w; completed := completed w |}.

Definition with_now (t : Z) (w : World) : World :=
  {| this := this w; now := t; timers := timers w;
     next_handle := next_handle w; pending := pending w;
     next_request := next_request w; target := target w;
     writes := writes w; ended := ended w; disk := disk w;
     emitted := emitted w; logged := logged w; completed := completed w |}.

Definition with_timers (ts : list nat) (nh : nat) (w : World) : World :=
  {| this := this w; now := now w; timers := ts;
     next_handle := nh; pending := pending w;
     next_request := next_request w; target := target w;
     writes := writes w; ended := ended w; disk := disk w;
     emitted := emitted w; logged := logged w; completed := completed w |}.

Definition with_pending (ps : list (nat * (request * callback))) (nr : nat)
  (w : World) : World :=
  {| this := this w; now := now w; timers := timers w;
     next_handle := next_handle w; pending := ps;
     next_request := nr; target := target w;
     writes := writes w; ended := ended w; disk := disk w;
     emitted := emitted w; logged := logged w; completed := completed w |}.

Definition with_file (tg : string) (ws : list (string * string)) (e : bool)
  (d : list string) (w : World) : World :=
  {| this := this w; now := now w; timers := timers w;
     next_handle := next_handle w; pending := pending w;
     next_request := next_request w; target := tg;
     writes := ws; ended := e; disk := d;
     emitted := emitted w; logged := logged w; completed := completed w |}.

Definition with_emitted (es : list FlushEvent) (w : World) : World :=
  {| this := this w; now := now w; timers := timers w;
     next_handle := next_handle w; pending := pending w;
     next_request := next_request w; target := target w;
     writes := writes w; ended := ended w; disk := disk w;
     emitted := es; logged := logged w; completed := completed w |}.

Definition with_logged (ls : list error) (w : World) : World :=
  {| this := this w; now := now w; timers := timers w;
     next_handle := next_handle w; pending := pending w;
     next_request := next_request w; target := target w;
     writes := writes w; ended := ended w; disk := disk w;
     emitted := emitted w; logged := ls; completed := completed w |}.

Definition with_completed (cs : list Completion) (w : World) : World :=
  {| this := this w; now := now w; timers := timers w;
     next_handle := next_handle w; pending := pending w;
     next_request := next_request w; target := target w;
     writes := writes w; ended := ended w; disk := disk w;
     emitted := emitted w; logged := logged w; completed := cs |}.

(** ** The state monad of method bodies *)

Definition M (A : Type) : Type := World -> A * World.

Definition ret {A : Type} (a : A) : M A := fun w => (a, w).

Definition bind {A B : Type} (m : M A) (k : A -> M B) : M B :=
  fun w => let (a, w') := m w in k a w'.

Notation "x <- m ;; k" := (bind m (fun x => k))
  (at level 61, m at next level, right associativity).
Notation "m ;; k" := (bind m (fun _ => k))
  (at level 61, right associativity).

Definition exec {A : Type} (m : M A) (w : World) : World := snd (m w).

(** Reading a field of [this], and assigning to one. *)
Definition get {A : Type} (field : Loader -> A) : M A := fun w => (field (this w), w).
Definition assign (f : Loader -> Loader) : M unit := fun w => (tt, with_this f w).

(** ** Host primitives *)

(** [path.join(dir, name)] of a directory and a plain file name. *)
Definition path_join (dir name : string) : string := dir ++ "/" ++ name.

Definition Date_now : M Z := fun w => (now w, w).

Definition remove_handle (h : nat) (ts : list nat) : list nat :=
  filter (fun t => negb (Nat.eqb t h)) ts.

(** [setTimeout(flush, period)]: a fresh handle becomes pending. *)
Definition setTimeout_flush (period : Z) : M nat :=
  fun w => (next_handle w,
            with_timers (timers w ++ [next_handle w]) (S (next_handle w)) w).

(** [clearTimeout(h)]: the handle, if pending, no longer is. *)
Definition clearTimeout (h : nat) : M unit :=
  fun w => (tt, with_timers (remove_handle h (timers w)) (next_handle w) w).

(** An asynchronous call: it is queued with its callback and returns. *)
Definition async (r : request) (cb : callback) : M unit :=
  fun w => (tt, with_pending (pending w ++ [(next_request w, (r, cb))])
                  (S (next_request w)) w).

(** [SimpleFileWriter]: [write], [setupFile] and [end].  [file_write] is
    the writer while it is open; a [write] after [end] throws in the
    library, before [insert] has counted the row, so what is stated about
    inserts that run is stated of a loader with [ended] false. *)
Definition file_write (data : string) : M unit :=
  fun w => (tt, with_file (target w) (writes w ++ [(target w, data)]) (ended w)
                  (if existsb (String.eqb (target w)) (disk w) then disk w
                   else disk w ++ [target w]) w).

Definition file_setupFile (path : string) : M unit :=
  fun w => (tt, with_file path (writes w) (ended w) (disk w) w).

Definition file_end : M unit :=
  fun w => (tt, with_file (target w) (writes w) true (disk w) w).

Definition logger_error (e : error) : M unit :=
  fun w => (tt, with_logged (logged w ++ [e]) w).

Definition emit_flush (a1 : option error) (a2 : payload) (a3 : string) (a4 : Z)
  (a5 : nat) : M unit :=
  fun w => (tt, with_emitted (emitted w ++
              [{| arg_err := a1; arg_result := a2; arg_third := a3;
                  arg_start := a4; arg_loader := a5 |}]) w).

(** ** The methods of [RedshiftBulkInsert] *)

Definition _getLogFileName : M string :=
  tableName <- get _tableName ;;
  t <- Date_now ;;
  pid <- get _pid ;;
  suffix <- get _suffix ;;
  ret (tableName ++ "_" ++ Z_toString t ++ "_" ++ Z_toString pid ++ suffix).

Definition _getCopyQuery (fileName : string) : M string :=
  tableName <- get _tableName ;;
  fields <- get _fields ;;
  awsBucketName <- get _awsBucketName ;;
  awsAccessKeyId <- get _awsAccessKeyId ;;
  awsSecretAccessKey <- get _awsSecretAccessKey ;;
  ret ("COPY "
       ++ tableName
       ++ " ("
       ++ join ", " fields
       ++ ")"
       ++ " FROM "
       ++ "'"
       ++ "s3://"
       ++ awsBucketName
       ++ "/"
       ++ fileName
       ++ "'"
       ++ " CREDENTIALS "
       ++ "'aws_access_key_id="
       ++ awsAccessKeyId
       ++ ";"
       ++ "aws_secret_access_key="
       ++ awsSecretAccessKey
       ++ "'"
       ++ " ESCAPE").

Definition startIdleFlushMonitor : M unit :=
  period <- get _idleFlushPeriod ;;
  h <- setTimeout_flush period ;;
  assign (set_ref h).

Definition flush : M unit :=
  n <- get _numberOfEventsInFile ;;
  (if 0 <? n then
     ops <- get activeFlushOps ;;
     assign (set_activeFlushOps (ops + 1)) ;;
     oldFileName <- get _fileName ;;
     pathToLogs <- get _pathToLogs ;;
     newFileName <- _getLogFileName ;;
     assign (set_fileName newFileName) ;;
     let newPathToFile := path_join pathToLogs newFileName in
     file_setupFile newPathToFile ;;
     start <- Date_now ;;
     let sendToS3 := Bind_sendToS3 oldFileName start in
     let oldPathToFile := path_join pathToLogs oldFileName in
     async (ReadFile oldPathToFile) sendToS3 ;;
     assign (set_numberOfEventsInFile 0)
   else ret tt) ;;
  startIdleFlushMonitor.

Definition _decrimentActiveFlushOpsAndEmitFlushEvent (start : Z)
  (err : option error) (result : payload) : M unit :=
  ops <- get activeFlushOps ;;
  assign (set_activeFlushOps (ops - 1)) ;;
  me <- get self ;;
  emit_flush err result "" start me.

Definition _onSentCopyToRedshift (start : Z) (err : option error)
  (result : payload) : M unit :=
  (match err with
   | Some e => logger_error e
   | None => ret tt
   end) ;;
  _decrimentActiveFlushOpsAndEmitFlushEvent start err result.

Definition _removeLogFile (fileName : string) (start : Z) : M unit :=
  pathToLogs <- get _pathToLogs ;;
  let pathToFile := path_join pathToLogs fileName in
  let onRemoved := Bind_onRemoved start in
  async (Unlink pathToFile) onRemoved.

Definition _onSentToS3 (fileName : string) (start : Z) (err : option error)
  (data : payload) : M unit :=
  match err with
  | Some e =>
      logger_error e ;;
      _decrimentActiveFlushOpsAndEmitFlushEvent start err data
  | None =>
      _removeLogFile fileName start ;;
      let onSentCopyToRedshift := Bind_onSentCopyToRedshift start in
      query <- _getCopyQuery fileName ;;
      async (Query query) onSentCopyToRedshift
  end.

Definition _sendToS3 (fileName : string) (start : Z) (err : option error)
  (body : payload) : M unit :=
  match err with
  | Some e =>
      logger_error e ;;
      _decrimentActiveFlushOpsAndEmitFlushEvent start err body
  | None =>
      bucket <- get _awsBucketName ;;
      let onSentToS3 := Bind_onSentToS3 fileName start in
      async (PutObject body fileName bucket) onSentToS3
  end.

Definition _checkThreshold : M unit :=
  n <- get _numberOfEventsInFile ;;
  threshold <- get _threshold ;;
  if threshold <=? n then
    h <- get ref ;;
    clearTimeout h ;;
    flush
  else ret tt.

Definition insert (row : list value) : M unit :=
  let line := _rowToLine row in
  file_write (line ++ NEWLINE) ;;
  n <- get _numberOfEventsInFile ;;
  assign (set_numberOfEventsInFile (n + 1)) ;;
  _checkThreshold.

Definition close : M unit :=
  h <- get ref ;;
  clearTimeout h ;;
  file_end.

(** The constructor: [new RedshiftBulkInsert(options)] run by process
    [pid] when the clock reads [clock]; [id] is the identity of the new
    object.  The host starts with nothing pending and an empty log
    directory.  The S3 client the constructor creates is the receiver of
    the [PutObject] calls and has no state of its own here. *)
Definition RedshiftBulkInsert (options : Options) (pid : Z) (id : nat)
  (clock : Z) : World :=
  let pathToLogs := opt_pathToLogs options in
  let idleFlushPeriod :=
    match opt_idleFlushPeriod options with Some p => p | None => 10000 end in
  let threshold :=
    match opt_threshold options with Some t => t | None => 1000 end in
  let obj :=
    {| self := id; _pid := pid; _suffix := SUFFIX;
       _tableName := opt_tableName options; _fields := opt_fields options;
       _pathToLogs := pathToLogs; _idleFlushPeriod := idleFlushPeriod;
       _threshold := threshold;
       _awsBucketName := opt_awsBucketName options;
       _awsAccessKeyId := opt_awsAccessKeyId options;
       _awsSecretAccessKey := opt_awsSecretAccessKey options;
       _numberOfEventsInFile := 0; activeFlushOps := 0;
       _fileName := ""; ref := O |} in
  let host :=
    {| this := obj; now := clock; timers := []; next_handle := O;
       pending := []; next_request := O; target := ""; writes := [];
       ended := false; disk := []; emitted := []; logged := [];
       completed := [] |} in
  exec (fileName <- _getLogFileName ;;
        let pathToFile := path_join pathToLogs fileName in
        assign (set_fileName fileName) ;;
        file_setupFile pathToFile ;;
        startIdleFlushMonitor) host.

(** ** The event loop *)

(** The host calls a bound callback with [(err, data)]. *)
Definition invoke (cb : callback) (err : option error) (data : payload) : M unit :=
  match cb with
  | Bind_sendToS3 fileName start => _sendToS3 fileName start err data
  | Bind_onSentToS3 fileName start => _onSentToS3 fileName start err data
  | Bind_onRemoved start =>
      _decrimentActiveFlushOpsAndEmitFlushEvent start err data
  | Bind_onSentCopyToRedshift start => _onSentCopyToRedshift start err data
  end.

(** What can happen to a loader: the application calls a public method,
    the clock moves, a pending timer elapses, or an outstanding
    asynchronous call completes with [(err, data)]. *)
Inductive action : Type :=
| Insert (row : list value)
| CallFlush
| Close
| Tick (dt : Z)
| TimerFires (h : nat)
| Completes (id : nat) (err : option error) (data : payload).

Fixpoint lookup_request (id : nat) (ps : list (nat * (request * callback)))
  : option (request * callback) :=
  match ps with
  | [] => None
  | (i, rc) :: ps' => if Nat.eqb i id then Some rc else lookup_request id ps'
  end.

Definition remove_request (id : nat) (ps : list (nat * (request * callback)))
  : list (nat * (request * callback)) :=
  filter (fun p => negb (Nat.eqb (fst p) id)) ps.

Definition remove_path (p : string) (d : list string) : list string :=
  filter (fun q => negb (String.eqb q p)) d.

(** What the outside world has done when a call completes: a successful
    unlink has removed the file.  [fs.unlink] passes only [err]. *)
Definition settle (r : request) (err : option error) (data : payload)
  (w : World) : payload * World :=
  match r, err with
  | Unlink p, None =>
      (None, with_file (target w) (writes w) (ended w) (remove_path p (disk w)) w)
  | Unlink _, Some _ => (None, w)
  | _, _ => (data, w)
  end.

Definition step (a : action) (w : World) : option World :=
  match a with
  | Insert row => Some (exec (insert row) w)
  | CallFlush => Some (exec flush w)
  | Close => Some (exec close w)
  | Tick dt => Some (with_now (now w + dt) w)
  | TimerFires h =>
      if existsb (Nat.eqb h) (timers w) then
        Some (exec flush
                (with_timers (remove_handle h (timers w)) (next_handle w) w))
      else None
  | Completes id err data =>
      match lookup_request id (pending w) with
      | Some (r, cb) =>
          let w1 := with_pending (remove_request id (pending w)) (next_request w) w in
          let (data', w2) := settle r err data w1 in
          let w3 := with_completed (completed w2 ++
                      [{| done_request := r; done_callback := cb;
                          done_err := err; done_data := data' |}]) w2 in
          Some (exec (invoke cb err data') w3)
      | None => None
      end
  end.

Fixpoint run (acts : list action) (w : World) : option World :=
  match acts with
  | [] => Some w
  | a :: acts' =>
      match step a w with
      | Some w' => run acts' w'
      | None => None
      end
  end.

(** The worlds a loader can be in: those its constructor and a sequence
    of actions lead to. *)
Definition reachable (w : World) : Prop :=
  exists options pid id clock acts,
    run acts (RedshiftBulkInsert options pid id clock) = Some w.

(** The actions the loader receives when the application only inserts
    rows and closes, that is, when [flush] runs from the idle timer or
    from the threshold check and never from a direct call. *)
Definition own_trigger (a : action) : bool :=
  match a with
  | CallFlush => false
  | _ => true
  end.

(** A rotation between [w] and [w']: the writer is redirected to a new
    file, and the old file is handed to a read whose callback carries the
    old name and the clock reading. *)
Definition rotation (w w' : World) : Prop :=
  let old := _fileName (this w) in
  let new := fst (_getLogFileName w) in
  _fileName (this w') = new /\
  target w' = path_join (_pathToLogs (this w)) new /\
  pending w' = (pending w ++
    [(next_request w,
      (ReadFile (path_join (_pathToLogs (this w)) old),
       Bind_sendToS3 old (now w)))])%list /\
  activeFlushOps (this w') = activeFlushOps (this w) + 1 /\
  _numberOfEventsInFile (this w') = 0.

(** ** The bulk-load command as the interface description gives it *)

Definition copy_command_shape (table : string) (fields : list string)
  (bucket key id secret : string) : string :=
  "COPY " ++ table ++ "(" ++ String.concat ", " fields ++ ") FROM 's3://"
    ++ bucket ++ "/" ++ key ++ "' CREDENTIALS 'aws_access_key_id=" ++ id
    ++ ";aws_secret_access_key=" ++ secret ++ "' ESCAPE".

(** The same with one space between the table name and the field list. *)
Definition copy_command_spaced (table : string) (fields : list string)
  (bucket key id secret : string) : string :=
  "COPY " ++ table ++ " (" ++ String.concat ", " fields ++ ") FROM 's3://"
    ++ bucket ++ "/" ++ key ++ "' CREDENTIALS 'aws_access_key_id=" ++ id
    ++ ";aws_secret_access_key=" ++ secret ++ "' ESCAPE".

(** ** The retry policy *)

Module RetryPolicy.

(** Modelled from the spec: [lib/BulkInsertRetryPolicy.js] is missing
    from the sources (only its test is present).  The options of a
    policy, with [retryCalculation] a pure function of the attempt number
    and the time slot. *)
Record RetryOptions : Type := {
  maxRetries : Z;
  retryCalculation : Z -> Z -> Z;
  timeSlot : Z;
  maxDelay : Z
}.

(** Modelled from the spec: [lib/BulkInsertRetryPolicy.js] is missing.
    The handler of a failure of a flush operation whose lineage has been
    retried [attempt] times: the delay is the clamped result of the
    calculation; a flush is scheduled after it when the attempt counter
    is below [maxRetries], and nothing is scheduled otherwise. *)
Definition on_failure (o : RetryOptions) (attempt : Z) : option Z :=
  let delay := Z.min (maxDelay o) (retryCalculation o attempt (timeSlot o)) in
  if attempt <? maxRetries o then Some delay else None.

(** Modelled from the spec: [lib/BulkInsertRetryPolicy.js] is missing.
    A lineage that always fails: the operation fails, and so does every
    flush the policy schedules, up to [failures] failures in all.  The
    result lists the delays of the retries scheduled, in order;
    [attempt] is the lineage's attempt counter. *)
Fixpoint always_failing (o : RetryOptions) (failures : nat) (attempt : Z)
  : list Z :=
  match failures with
  | O => []
  | S failures' =>
      match on_failure o attempt with
      | Some delay => delay :: always_failing o failures' (attempt + 1)
      | None => []
      end
  end.

(** The attempt numbers [from], [from + 1], ... ([count] of them). *)
Fixpoint attempts (from : Z) (count : nat) : list Z :=
  match count with
  | O => []
  | S count' => from :: attempts (from + 1) count'
  end.

(** The delay applied before the retry with attempt number [k]. *)
Definition applied_delay (o : RetryOptions) (k : Z) : Z :=
  Z.min (maxDelay o) (retryCalculation o k (timeSlot o)).

(** A policy with three retries and a doubling backoff of 100 ms slots,
    capped at 350 ms. *)
Definition example_policy : RetryOptions :=
  {| maxRetries := 3;
     retryCalculation := fun attempt slot => 2 ^ attempt * slot;
     timeSlot := 100;
     maxDelay := 350 |}.

End RetryPolicy.


(** The timestamp a callback was bound with. *)
Definition start_of (cb : callback) : Z :=
  match cb with
  | Bind_sendToS3 _ start => start
  | Bind_onSentToS3 _ start => start
  | Bind_onRemoved start => start
  | Bind_onSentCopyToRedshift start => start
  end.

(** The callbacks that end an operation when they run with [err]: every
    callback on an error, and the unlink and the load callbacks always. *)
Definition terminal (cb : callback) (err : option error) : bool :=
  match cb, err with
  | Bind_onRemoved _, _ => true
  | Bind_onSentCopyToRedshift _, _ => true
  | _, Some _ => true
  | _, None => false
  end.

(** The fields of [this] that no method assigns to. *)
Definition same_config (w w' : World) : Prop :=
  self (this w') = self (this w) /\
  _pid (this w') = _pid (this w) /\
  _suffix (this w') = _suffix (this w) /\
  _tableName (this w') = _tableName (this w) /\
  _fields (this w') = _fields (this w) /\
  _pathToLogs (this w') = _pathToLogs (this w) /\
  _idleFlushPeriod (this w') = _idleFlushPeriod (this w) /\
  _threshold (this w') = _threshold (this w) /\
  _awsBucketName (this w') = _awsBucketName (this w) /\
  _awsAccessKeyId (this w') = _awsAccessKeyId (this w) /\
  _awsSecretAccessKey (this w') = _awsSecretAccessKey (this w).

(** ** A concrete loader for the examples *)

(** Table [t] with fields [a] and [b], rotating at every row. *)
Definition example_options : Options :=
  {| opt_pathToLogs := "/logs"; opt_tableName := "t";
     opt_fields := ["a"; "b"]; opt_idleFlushPeriod := None;
     opt_threshold := Some 1; opt_awsBucketName := "bk";
     opt_awsAccessKeyId := "ID"; opt_awsSecretAccessKey := "SECRET" |}.

(** The loader built by process 42 at clock reading 1000, and the same
    five milliseconds later. *)
Definition example_loader : World := RedshiftBulkInsert example_options 42 7 1000.
Definition example_started : World := with_now (now example_loader + 5) example_loader.

(** The example loader after one row, inserted at clock reading 1005,
    and after a second row inserted within the same millisecond. *)
Definition example_one_row : World := exec (insert [JString "x"]) example_started.
Definition example_two_rows : World := exec (insert [JString "y"]) example_one_row.

(** The same with the clock moving by five milliseconds in between. *)
Definition example_later : World := with_now (now example_one_row + 5) example_one_row.
Definition example_later_row : World := exec (insert [JString "y"]) example_later.

(** The read of the rotated file of [example_one_row] fails. *)
Definition example_read_failed : World :=
  match step (Completes 0 (Some "ENOENT") None) example_one_row with
  | Some w => w
  | None => example_one_row
  end.

(** One row is inserted at clock reading 1005 and rotated at once; the
    read (call 0) and the upload (call 1) succeed, then the unlink
    (call 2) and the load command (call 3) complete without error. *)
Definition example_success : list action :=
  [Tick 5;
   Insert [JString "x"];
   Completes 0 None (Some ("x" ++ NEWLINE));
   Completes 1 None None;
   Completes 2 None None;
   Completes 3 None (Some "ok")].

(** How one [insert] moves the row count of a loader with threshold [t]. *)
Definition count_after_insert (t n : Z) : Z :=
  if t <=? n + 1 then 0 else n + 1.

(** Every pending handle, and the handle in [ref], was handed out
    earlier than the next one will be. *)
Definition handles_fresh (w : World) : Prop :=
  (ref (this w) < next_handle w)%nat /\
  Forall (fun h => (h < next_handle w)%nat) (timers w).

(** No idle timer is pending, or exactly the one whose handle is in
    [ref]. *)
Definition one_timer (w : World) : Prop :=
  timers w = [] \/ timers w = [ref (this w)].

(** ** The stages of a flush operation, read off the host's history *)

(** Every asynchronous call made so far with its callback: the
    outstanding ones, then the completed ones. *)
Definition issued (w : World) : list (request * callback) :=
  (map snd (pending w)
     ++ map (fun c => (done_request c, done_callback c)) (completed w))%list.

(** The calls an action adds to [issued]: a rotation adds the read of
    the old file; a successful read adds the upload; a successful upload
    adds the unlink and the load command; nothing else adds a call. *)
Definition fresh_request (a : action) (w : World) (x : request * callback) : Prop :=
  match a with
  | Insert _ | CallFlush | TimerFires _ =>
      x = (ReadFile (path_join (_pathToLogs (this w)) (_fileName (this w))),
           Bind_sendToS3 (_fileName (this w)) (now w))
  | Completes id err data =>
      match lookup_request id (pending w), err with
      | Some (_, Bind_sendToS3 f s), None =>
          exists body,
            x = (PutObject body f (_awsBucketName (this w)), Bind_onSentToS3 f s)
      | Some (_, Bind_onSentToS3 f s), None =>
          x = (Unlink (path_join (_pathToLogs (this w)) f), Bind_onRemoved s) \/
          x = (Query (fst (_getCopyQuery f w)), Bind_onSentCopyToRedshift s)
      | _, _ => False
      end
  | Close | Tick _ => False
  end.

(** The read of file [f], bound with timestamp [s], has succeeded. *)
Definition read_ok (logs f : string) (s : Z) (done : list Completion) : Prop :=
  exists data,
    In {| done_request := ReadFile (path_join logs f);
          done_callback := Bind_sendToS3 f s;
          done_err := None; done_data := data |} done.

(** The upload of file [f], bound with timestamp [s], has succeeded. *)
Definition uploaded (f : string) (s : Z) (done : list Completion) : Prop :=
  exists body bucket data,
    In {| done_request := PutObject body f bucket;
          done_callback := Bind_onSentToS3 f s;
          done_err := None; done_data := data |} done.

(** A call is in its place in the pipeline: a read carries the callback
    of its file; an upload follows a successful read of its key; an
    unlink and a load command follow a successful upload of their file;
    and the timestamp is handed down unchanged. *)
Definition stage_ok (w : World) (x : request * callback) : Prop :=
  let logs := _pathToLogs (this w) in
  match x with
  | (ReadFile p, cb) =>
      exists f s, cb = Bind_sendToS3 f s /\ p = path_join logs f
  | (PutObject body key bucket, cb) =>
      exists s, cb = Bind_onSentToS3 key s /\ read_ok logs key s (completed w)
  | (Unlink p, cb) =>
      exists f s, cb = Bind_onRemoved s /\ p = path_join logs f /\
                  uploaded f s (completed w)
  | (Query q, cb) =>
      exists f s, cb = Bind_onSentCopyToRedshift s /\
                  q = fst (_getCopyQuery f w) /\ uploaded f s (completed w)
  end.

Definition staged (w : World) : Prop :=
  forall x, In x (issued w) -> stage_ok w x.

(** The [flush] event a completed call gives rise to. *)
Definition event_of (me : nat) (c : Completion) : FlushEvent :=
  {| arg_err := done_err c; arg_result := done_data c; arg_third := "";
     arg_start := start_of (done_callback c); arg_loader := me |}.

Definition ends_operation (c : Completion) : bool :=
  terminal (done_callback c) (done_err c).

(** Every outstanding call was numbered before the next one will be. *)
Definition requests_fresh (w : World) : Prop :=
  Forall (fun p => (fst p < next_request w)%nat) (pending w).

(** ** Reading a line back *)

(** The reading of an escaped field under the ESCAPE option of the load
    command: a backslash stands for the character that follows it. *)
Fixpoint unescape (s : string) : string :=
  match s with
  | EmptyString => EmptyString
  | String a s' =>
      if Ascii.eqb a "\"%char then
        match s' with
        | EmptyString => EmptyString
        | String b s'' => String b (unescape s'')
        end
      else String a (unescape s')
  end.

(** [p] put in front of the first field of a list of fields. *)
Definition cons_head (p : string) (fields : list string) : list string :=
  match fields with
  | [] => [p]
  | f :: fields' => (p ++ f)%string :: fields'
  end.

(** The fields of a line: the line is cut at every bar that no backslash
    escapes. *)
Fixpoint split_fields (s : string) : list string :=
  match s with
  | EmptyString => [EmptyString]
  | String a s' =>
      if Ascii.eqb a "\"%char then
        match s' with
        | EmptyString => [String a EmptyString]
        | String b s'' =>
            cons_head (String a (String b EmptyString)) (split_fields s'')
        end
      else if Ascii.eqb a "|"%char then EmptyString :: split_fields s'
      else cons_head (String a EmptyString) (split_fields s')
  end.

(** The value a field reads back as: null for the null token, and the
    unescaped text otherwise. *)
Definition decode_field (f : string) : value :=
  if String.eqb f NULL then JNull else JString (unescape f).

Definition decode_line (line : string) : list value :=
  map decode_field (split_fields line).

(** What a value is once written: undefined is null, and a number or a
    boolean is the text of its string conversion. *)
Definition written_form (v : value) : value :=
  match v with
  | JNull | JUndefined => JNull
  | JString s => JString s
  | _ => JString (ToString v)
  end.

(** The two characters the encoder escapes. *)
Definition special (c : ascii) : Prop := c = "\"%char \/ c = "|"%char.

(** ** Bookkeeping over runs *)

(** The data the writer receives for the inserts among [acts], in
    order. *)
Definition inserted_lines (acts : list action) : list string :=
  flat_map (fun a => match a with
                     | Insert row => [(_rowToLine row ++ NEWLINE)%string]
                     | _ => []
                     end) acts.

(** The number of uploads that have completed without error. *)
Definition successful_uploads (done : list Completion) : nat :=
  List.length
    (filter (fun c => match done_callback c, done_err c with
                      | Bind_onSentToS3 _ _, None => true
                      | _, _ => false
                      end) done).

(** What a completed call leaves in the log: its error, unless the call
    is the unlink, whose callback does not log. *)
Definition log_entry (c : Completion) : list error :=
  match done_callback c, done_err c with
  | Bind_onRemoved _, _ => []
  | _, Some e => [e]
  | _, None => []
  end.

(** The actions that are no call of the application: the clock, a timer
    and the completions. *)
Definition passive (a : action) : bool :=
  match a with
  | Tick _ | TimerFires _ | Completes _ _ _ => true
  | _ => false
  end.

(** The outstanding calls have different numbers. *)
Definition ids_unique (w : World) : Prop := NoDup (map fst (pending w)).

(** A loader with the default threshold and idle period. *)
Definition default_options : Options :=
  {| opt_pathToLogs := "/logs"; opt_tableName := "t";
     opt_fields := ["a"; "b"]; opt_idleFlushPeriod := None;
     opt_threshold := None; opt_awsBucketName := "bk";
     opt_awsAccessKeyId := "ID"; opt_awsSecretAccessKey := "SECRET" |}.

Definition default_loader : World := RedshiftBulkInsert default_options 42 7 1000.

(** Every upload issued so far carries the body that the read of the
    file of the same name returned, and goes to the configured bucket. *)
Definition uploads_faithful (w : World) : Prop :=
  forall body key bucket cb,
    In (PutObject body key bucket, cb) (issued w) ->
    bucket = _awsBucketName (this w) /\
    exists s,
      cb = Bind_onSentToS3 key s /\
      In {| done_request := ReadFile (path_join (_pathToLogs (this w)) key);
            done_callback := Bind_sendToS3 key s;
            done_err := None; done_data := body |} (completed w).

(** The example loader after the read of its first rotated file has
    succeeded. *)
Definition example_read_ok : World :=
  match step (Completes 0 None (Some ("x" ++ NEWLINE)%string)) example_one_row with
  | Some w => w
  | None => example_one_row
  end.

(** A loader that rotates at every third row, with two rows buffered. *)
Definition three_options : Options :=
  {| opt_pathToLogs := "/logs"; opt_tableName := "t";
     opt_fields := ["a"; "b"]; opt_idleFlushPeriod := Some 50;
     opt_threshold := Some 3; opt_awsBucketName := "bk";
     opt_awsAccessKeyId := "ID"; opt_awsSecretAccessKey := "SECRET" |}.

Definition two_buffered : World :=
  exec (insert [JString "y"])
    (exec (insert [JString "x"]) (RedshiftBulkInsert three_options 42 7 1000)).

(** When an action rotates: an insert that brings the count to the
    threshold, and a flush, direct or from a timer, of a buffer that is
    not empty. *)
Definition rotates (a : action) (w : World) : Prop :=
  match a with
  | Insert _ => _threshold (this w) <= _numberOfEventsInFile (this w) + 1
  | CallFlush | TimerFires _ => 0 < _numberOfEventsInFile (this w)
  | Close | Tick _ | Completes _ _ _ => False
  end.

(** The pending timers have different handles. *)
Definition timers_unique (w : World) : Prop := NoDup (timers w).

(** On a loader that is not closed the idle timer in [ref] is pending,
    and no other. *)
Definition idle_armed (w : World) : Prop :=
  ended w = false -> timers w = [ref (this w)].

(** The three-row loader, and what its application does to it: a direct
    [flush], one row, [close]; then the idle period passes and the timer
    of the constructor, handle 0, fires. *)
Definition three_loader : World := RedshiftBulkInsert three_options 42 7 1000.

Definition leaked_timer_run : list action :=
  [CallFlush; Insert [JString "x"]; Close; Tick 50; TimerFires 0].

(** Two rows within one millisecond on the example loader, which rotates
    at every row; then the read (call 1), the upload (call 2) and the
    unlink (call 3) of the second operation complete without error. *)
Definition same_millisecond_run : list action :=
  [Tick 5; Insert [JString "x"]; Insert [JString "y"];
   Completes 1 None (Some ("y" ++ NEWLINE)%string);
   Completes 2 None None;
   Completes 3 None None].

(** * Properties *)

(** ** Strings *)

Lemma append_nil_r (s : string) : s ++ "" = s.
Proof. induction s as [|a s IH]; simpl; [reflexivity | now rewrite IH]. Qed.

Lemma append_assoc (a b c : string) : (a ++ b) ++ c = a ++ (b ++ c).
Proof. induction a as [|x a IH]; simpl; [reflexivity | now rewrite IH]. Qed.

Lemma length_append (a b : string) :
  String.length (a ++ b) = (String.length a + String.length b)%nat.
Proof. induction a as [|x a IH]; simpl; [reflexivity | now rewrite IH]. Qed.

Lemma append_cancel_l (a b c : string) : a ++ b = a ++ c -> b = c.
Proof.
  induction a as [|x a IH]; simpl; intros H; [exact H|].
  injection H as H. now apply IH.
Qed.

Lemma append_cancel_r (c a b : string) : a ++ c = b ++ c -> a = b.
Proof.
  revert b. induction a as [|x a IH]; intros [|y b] H; simpl in H.
  - reflexivity.
  - exfalso. apply (f_equal String.length) in H. simpl in H.
    rewrite length_append in H. lia.
  - exfalso. apply (f_equal String.length) in H. simpl in H.
    rewrite length_append in H. lia.
  - injection H as Hxy H. subst y. f_equal. now apply IH.
Qed.

Lemma occurs_append (c : ascii) (a b : string) :
  occurs c (a ++ b) = occurs c a || occurs c b.
Proof.
  induction a as [|x a IH]; simpl; [reflexivity|].
  now rewrite IH, orb_assoc.
Qed.

(** ** The line encoder *)

Lemma replace_all_append (c : ascii) (r a b : string) :
  replace_all c r (a ++ b) = replace_all c r a ++ replace_all c r b.
Proof.
  induction a as [|x a IH]; simpl; [reflexivity|].
  now rewrite IH, append_assoc.
Qed.

(** The two passes of [_escapeValue] on a string amount to one pass that
    maps each character on its own: the second pass leaves alone the
    backslashes the first one wrote. *)
Lemma two_passes_escape (s : string) :
  replace_all "|"%char "\|" (replace_all "\"%char "\\" s) = escape_string s.
Proof.
  induction s as [|a s IH]; simpl; [reflexivity|].
  rewrite replace_all_append, IH. f_equal.
  unfold escape_char.
  destruct (Ascii.eqb a "\"%char) eqn:Hb; [reflexivity|].
  simpl. destruct (Ascii.eqb a "|"%char); reflexivity.
Qed.

Lemma _escapeValue_encode_field (v : value) : _escapeValue v = encode_field v.
Proof.
  destruct v as [| |s|x|b]; simpl; try reflexivity.
  - apply two_passes_escape.
  - apply append_nil_r.
  - destruct b; reflexivity.
Qed.

Lemma _rowToLine_loop_map (row pre : list value) (lineBuff : list string) :
  _rowToLine_loop (pre ++ row) (List.length pre) (List.length row) lineBuff
  = (lineBuff ++ map _escapeValue row)%list.
Proof.
  revert pre lineBuff. induction row as [|v row IH]; intros pre lineBuff; simpl.
  - now rewrite app_nil_r.
  - rewrite app_nth2, Nat.sub_diag by lia. simpl.
    replace (pre ++ v :: row)%list with ((pre ++ [v]) ++ row)%list
      by now rewrite <- app_assoc.
    replace (S (List.length pre)) with (List.length (pre ++ [v])%list)
      by (rewrite length_app; simpl; lia).
    rewrite IH, <- app_assoc. reflexivity.
Qed.

Lemma _rowToLine_encode_line (row : list value) : _rowToLine row = encode_line row.
Proof.
  unfold _rowToLine, encode_line, join, DELIMITER.
  pose proof (_rowToLine_loop_map row [] []) as H. simpl in H.
  rewrite H. f_equal.
  apply map_ext, _escapeValue_encode_field.
Qed.

(** ** Running method bodies *)

Ltac run_body :=
  unfold exec, insert, _checkThreshold, close, flush, startIdleFlushMonitor,
    _sendToS3, _onSentToS3, _removeLogFile, _onSentCopyToRedshift,
    _decrimentActiveFlushOpsAndEmitFlushEvent, _getLogFileName, _getCopyQuery,
    emit_flush, logger_error, file_end, file_setupFile, file_write, async,
    clearTimeout, setTimeout_flush, Date_now, assign, get, bind, ret;
  cbn [fst snd this now timers next_handle pending next_request target writes
       ended disk emitted logged completed with_this with_now with_timers
       with_pending with_file with_emitted with_logged with_completed
       self _pid _suffix _tableName _fields _pathToLogs _idleFlushPeriod
       _threshold _awsBucketName _awsAccessKeyId _awsSecretAccessKey
       _numberOfEventsInFile activeFlushOps _fileName ref
       set_numberOfEventsInFile set_activeFlushOps set_fileName set_ref].

Lemma insert_writes (row : list value) (w : World) :
  writes (exec (insert row) w)
  = (writes w ++ [(target w, (_rowToLine row ++ NEWLINE)%string)])%list.
Proof.
  run_body.
  destruct (_threshold (this w) <=? _numberOfEventsInFile (this w) + 1);
    run_body; [|reflexivity].
  destruct (0 <? _numberOfEventsInFile (this w) + 1); run_body; reflexivity.
Qed.

(** ** No value but null and undefined encodes to the null token *)

Arguments digit_char : simpl never.
Arguments Z_toString : simpl never.

Lemma digit_char_not_backslash (d : nat) : Ascii.eqb (digit_char d) "\"%char = false.
Proof.
  unfold digit_char.
  pose proof (Nat.mod_upper_bound d 10 ltac:(discriminate)) as Hlt.
  remember (Nat.modulo d 10) as m eqn:Hm. clear Hm.
  do 10 (destruct m as [|m]; [reflexivity|]).
  exfalso. lia.
Qed.

Lemma digits_no_backslash (ds : list nat) :
  occurs "\"%char (digits_to_string ds) = false.
Proof.
  induction ds as [|d ds IH]; [reflexivity|].
  cbn [digits_to_string occurs].
  rewrite digit_char_not_backslash. exact IH.
Qed.

Lemma zeros_no_backslash (k : nat) : occurs "\"%char (zeros k) = false.
Proof. induction k as [|k IH]; [reflexivity | exact IH]. Qed.

Lemma uint_no_backslash (d : Decimal.uint) :
  occurs "\"%char (NilEmpty.string_of_uint d) = false.
Proof. induction d; [reflexivity | exact IHd ..]. Qed.

Lemma Z_toString_no_backslash (z : Z) : occurs "\"%char (Z_toString z) = false.
Proof.
  unfold Z_toString, NilEmpty.string_of_int.
  destruct (Z.to_int z) as [d|d]; [|cbn [occurs]];
    rewrite uint_no_backslash; reflexivity.
Qed.

Lemma sign_no_backslash (b : bool) (m p : string) :
  occurs "\"%char m = false -> occurs "\"%char p = false ->
  occurs "\"%char (if b then m else p) = false.
Proof. now destruct b. Qed.

Lemma Number_toString_no_backslash (x : number) :
  occurs "\"%char (Number_toString x) = false.
Proof.
  destruct x as [|neg|neg|neg ds n]; unfold Number_toString.
  - reflexivity.
  - destruct neg; reflexivity.
  - reflexivity.
  - rewrite occurs_append.
    rewrite (sign_no_backslash neg "-" "") by reflexivity.
    rewrite orb_false_l.
    repeat apply sign_no_backslash.
    + now rewrite occurs_append, digits_no_backslash, zeros_no_backslash.
    + rewrite !occurs_append, !digits_no_backslash. reflexivity.
    + rewrite !occurs_append, zeros_no_backslash, digits_no_backslash.
      reflexivity.
    + rewrite !occurs_append, digits_no_backslash, Z_toString_no_backslash.
      rewrite (sign_no_backslash (n - 1 <? 0) "-" "+") by reflexivity.
      replace (occurs "\"%char "e") with false by reflexivity.
      cbn [orb].
      destruct (skipn 1 ds) as [|d rest]; [reflexivity|].
      rewrite occurs_append, digits_no_backslash. reflexivity.
Qed.

Lemma Number_toString_not_NULL (x : number) : Number_toString x <> NULL.
Proof.
  intros H. apply (f_equal (occurs "\"%char)) in H.
  rewrite Number_toString_no_backslash in H. discriminate H.
Qed.

(** An escaped string starts with a plain character, or with a backslash
    followed by a backslash or a bar: never with backslash-N. *)
Lemma escape_string_not_NULL (s : string) : escape_string s <> NULL.
Proof.
  destruct s as [|a s]; [discriminate|].
  cbn [escape_string]. unfold escape_char, NULL.
  destruct (Ascii.eqb a "\"%char) eqn:Hb; [cbn [append]; discriminate|].
  destruct (Ascii.eqb a "|"%char) eqn:Hp; [cbn [append]; discriminate|].
  cbn [append]. intros H. injection H as Ha _. subst a. discriminate Hb.
Qed.

(** C6: the encoded line of a row is its fields joined by the bar; a null
    or absent field is the token backslash-N; a string field is the
    string after replacing every backslash by two backslashes and then
    every bar by backslash-bar, which is the same as escaping each
    character on its own; and [insert] hands the writer that line
    followed by exactly one newline character. *)
Theorem line_format (row : list value) (w : World) :
  _rowToLine row = String.concat "|" (map _escapeValue row) /\
  _rowToLine row = encode_line row /\
  _escapeValue JNull = "\N" /\
  _escapeValue JUndefined = "\N" /\
  (forall s, _escapeValue (JString s)
             = replace_all "|"%char "\|" (replace_all "\"%char "\\" s)) /\
  (forall s, _escapeValue (JString s) = escape_string s) /\
  writes (exec (insert row) w)
  = (writes w ++ [(target w, (encode_line row ++ String (ascii_of_nat 10) "")%string)])%list.
Proof.
  repeat split.
  - rewrite _rowToLine_encode_line. unfold encode_line. f_equal.
    apply map_ext. intros v. symmetry. apply _escapeValue_encode_field.
  - apply _rowToLine_encode_line.
  - intros s. apply two_passes_escape.
  - rewrite insert_writes, _rowToLine_encode_line. reflexivity.
Qed.

(** The scenario of the interface description: the rows [a, b] and
    [null, x|y] give the lines [a|b] and [\N|x\|y]. *)
Example line_format_scenario :
  _rowToLine [JString "a"; JString "b"] = "a|b" /\
  _rowToLine [JNull; JString "x|y"] = "\N|x\|y" /\
  _rowToLine [JString "c:\d"; JUndefined; JNumber (Finite false [4; 2]%nat 2)]
  = "c:\\d|\N|42".
Proof. repeat split. Qed.

(** C10: [_escapeValue] returns the null token exactly for null and
    undefined; the empty string encodes to the empty field, which is not
    the null token; a number or a boolean encodes to its string
    conversion, so 0 gives [0], false gives [false] and NaN gives [NaN],
    and none of them gives the null token. *)
Theorem null_sentinel_exact :
  (forall v, _escapeValue v = NULL <-> v = JNull \/ v = JUndefined) /\
  _escapeValue (JString "") = "" /\
  _escapeValue (JString "") <> NULL /\
  (forall x, _escapeValue (JNumber x) = Number_toString x) /\
  (forall b, _escapeValue (JBoolean b) = if b then "true" else "false") /\
  _escapeValue (JNumber (Zero false)) = "0" /\
  _escapeValue (JNumber (Zero true)) = "0" /\
  _escapeValue (JBoolean false) = "false" /\
  _escapeValue (JNumber NaN) = "NaN".
Proof.
  repeat split; try reflexivity; try discriminate.
  - intros H. destruct v as [| |s|x|b]; auto; exfalso.
    + rewrite _escapeValue_encode_field in H. now apply escape_string_not_NULL in H.
    + rewrite _escapeValue_encode_field in H. now apply Number_toString_not_NULL in H.
    + destruct b; discriminate H.
  - intros [H|H]; subst v; reflexivity.
  - intros x. apply _escapeValue_encode_field.
  - intros b. rewrite _escapeValue_encode_field. reflexivity.
Qed.

(** ** The bulk-load command *)

Lemma _getCopyQuery_spaced (fileName : string) (w : World) :
  fst (_getCopyQuery fileName w)
  = copy_command_spaced (_tableName (this w)) (_fields (this w))
      (_awsBucketName (this w)) fileName (_awsAccessKeyId (this w))
      (_awsSecretAccessKey (this w)).
Proof.
  run_body. unfold copy_command_spaced, join.
  repeat (rewrite ?append_assoc; cbn [append]; f_equal;
          try apply (f_equal (append _))).
Qed.

Lemma copy_command_lengths (table : string) (fields : list string)
  (bucket key id secret : string) :
  String.length (copy_command_spaced table fields bucket key id secret)
  = S (String.length (copy_command_shape table fields bucket key id secret)).
Proof.
  unfold copy_command_spaced, copy_command_shape.
  rewrite !length_append. cbn [String.length]. lia.
Qed.

(** A successful upload queues the unlink of the local file and then the
    load command, both in the handler's own turn. *)
Lemma _onSentToS3_success (fileName : string) (start : Z) (data : payload)
  (w : World) :
  let w' := exec (_onSentToS3 fileName start None data) w in
  pending w' =
    (pending w ++
     [(next_request w,
       (Unlink (path_join (_pathToLogs (this w)) fileName), Bind_onRemoved start));
      (S (next_request w),
       (Query (fst (_getCopyQuery fileName w)), Bind_onSentCopyToRedshift start))])%list
  /\ this w' = this w /\ disk w' = disk w /\ emitted w' = emitted w
  /\ logged w' = logged w /\ timers w' = timers w.
Proof.
  run_body. rewrite <- app_assoc. repeat split.
Qed.

(** The shape of the interface description does not hold on the example
    loader: the command has a space before the field list. *)
Lemma copy_query_not_spec_shape :
  fst (_getCopyQuery "t_1000_42.log" example_loader)
  = "COPY t (a, b) FROM 's3://bk/t_1000_42.log' CREDENTIALS 'aws_access_key_id=ID;aws_secret_access_key=SECRET' ESCAPE"
  /\ fst (_getCopyQuery "t_1000_42.log" example_loader)
     <> copy_command_shape "t" ["a"; "b"] "bk" "t_1000_42.log" "ID" "SECRET".
Proof. split; [reflexivity | vm_compute; discriminate]. Qed.

(** C7, amended: for every configuration and file name the command is,
    byte for byte, COPY, the table, a space, the parenthesised field list
    joined by comma-space in configured order, FROM the quoted s3 URL of
    bucket and key, CREDENTIALS with the quoted key id and secret, and
    ESCAPE; it is one byte longer than the shape without the space, so it
    never equals that shape; and this string is the query a successful
    upload issues. *)
Theorem copy_query_shape (fileName : string) (start : Z) (data : payload)
  (w : World) :
  let table := _tableName (this w) in
  let fields := _fields (this w) in
  let bucket := _awsBucketName (this w) in
  let id := _awsAccessKeyId (this w) in
  let secret := _awsSecretAccessKey (this w) in
  fst (_getCopyQuery fileName w)
  = ("COPY " ++ table ++ " (" ++ String.concat ", " fields ++ ") FROM 's3://"
      ++ bucket ++ "/" ++ fileName ++ "' CREDENTIALS 'aws_access_key_id=" ++ id
      ++ ";aws_secret_access_key=" ++ secret ++ "' ESCAPE")%string
  /\ fst (_getCopyQuery fileName w)
     <> copy_command_shape table fields bucket fileName id secret
  /\ In (S (next_request w),
         (Query (copy_command_spaced table fields bucket fileName id secret),
          Bind_onSentCopyToRedshift start))
        (pending (exec (_onSentToS3 fileName start None data) w)).
Proof.
  cbv zeta. split; [|split].
  - apply _getCopyQuery_spaced.
  - rewrite _getCopyQuery_spaced. intros H.
    apply (f_equal String.length) in H.
    rewrite copy_command_lengths in H. lia.
  - destruct (_onSentToS3_success fileName start data w) as [Hp _].
    cbv zeta in Hp. rewrite Hp, _getCopyQuery_spaced.
    apply in_or_app. right. right. left. reflexivity.
Qed.

(** ** One turn of the event loop *)

Ltac branches :=
  repeat (run_body;
          match goal with
          | |- context [if ?c then _ else _] => destruct c eqn:?
          end);
  run_body.

Ltac step_cases H :=
  match type of H with
  | step ?a ?w = Some ?w' =>
      destruct a as [row| | |dt|h|id err data]; unfold step in H;
      [ | | |
      | destruct (existsb (Nat.eqb h) (timers w)) eqn:?; [|discriminate H]
      | destruct (lookup_request id (pending w)) as [[r cb]|] eqn:?;
        [|discriminate H];
        destruct r, err, cb; cbn [settle invoke] in H ];
      injection H as H; subst w'
  end.

Lemma step_same_config (a : action) (w w' : World) :
  step a w = Some w' -> same_config w w'.
Proof.
  intros H. unfold same_config. step_cases H; branches; repeat split.
Qed.

Lemma same_config_refl (w : World) : same_config w w.
Proof. unfold same_config. repeat split. Qed.

Lemma same_config_trans (w1 w2 w3 : World) :
  same_config w1 w2 -> same_config w2 w3 -> same_config w1 w3.
Proof.
  unfold same_config. intros H1 H2.
  repeat match goal with H : _ /\ _ |- _ => destruct H as [? H] end.
  repeat split; congruence.
Qed.

Lemma run_same_config (acts : list action) (w w' : World) :
  run acts w = Some w' -> same_config w w'.
Proof.
  revert w. induction acts as [|a acts IH]; intros w H; simpl in H.
  - injection H as <-. apply same_config_refl.
  - destruct (step a w) as [w1|] eqn:Hs; [|discriminate H].
    eapply same_config_trans; [eapply step_same_config; eassumption|].
    now apply IH.
Qed.

(** ** Reachable worlds *)

Lemma run_invariant (P : World -> Prop) :
  (forall a w w', P w -> step a w = Some w' -> P w') ->
  forall acts w w', P w -> run acts w = Some w' -> P w'.
Proof.
  intros Hstep acts. induction acts as [|a acts IH]; intros w w' Hw H; simpl in H.
  - now injection H as <-.
  - destruct (step a w) as [w1|] eqn:Hs; [|discriminate H].
    eapply IH; [|eassumption]. eapply Hstep; eassumption.
Qed.

Lemma reachable_invariant (P : World -> Prop) :
  (forall options pid id clock, P (RedshiftBulkInsert options pid id clock)) ->
  (forall a w w', P w -> step a w = Some w' -> P w') ->
  forall w, reachable w -> P w.
Proof.
  intros Hinit Hstep w (options & pid & id & clock & acts & Hrun).
  eapply run_invariant; [exact Hstep | apply Hinit | exact Hrun].
Qed.

Lemma run_app (acts1 acts2 : list action) (w w1 w2 : World) :
  run acts1 w = Some w1 -> run acts2 w1 = Some w2 ->
  run (acts1 ++ acts2) w = Some w2.
Proof.
  revert w. induction acts1 as [|a acts1 IH]; intros w H1 H2; simpl in *.
  - now injection H1 as ->.
  - destruct (step a w) as [w'|]; [|discriminate H1]. now apply IH.
Qed.

Lemma reachable_run (acts : list action) (w w' : World) :
  reachable w -> run acts w = Some w' -> reachable w'.
Proof.
  intros (options & pid & id & clock & acts0 & H0) H.
  exists options, pid, id, clock, (acts0 ++ acts)%list.
  eapply run_app; eassumption.
Qed.

Lemma reachable_suffix (w : World) : reachable w -> _suffix (this w) = SUFFIX.
Proof.
  revert w. apply (reachable_invariant (fun w => _suffix (this w) = SUFFIX)).
  - reflexivity.
  - intros a w0 w' IH H. apply step_same_config in H.
    destruct H as (_ & _ & H & _). congruence.
Qed.

(** The row count is never negative. *)
Lemma reachable_count_nonneg (w : World) :
  reachable w -> 0 <= _numberOfEventsInFile (this w).
Proof.
  revert w.
  apply (reachable_invariant (fun w => 0 <= _numberOfEventsInFile (this w))).
  - intros. vm_compute. discriminate.
  - intros a w0 w' IH H. step_cases H; branches; lia.
Qed.

(** ** File identifiers *)

Lemma Z_toString_inj (a b : Z) : Z_toString a = Z_toString b -> a = b.
Proof.
  unfold Z_toString. intros H. apply DecimalZ.to_int_inj.
  assert (Hs : Some (Z.to_int a) = Some (Z.to_int b))
    by now rewrite <- !NilEmpty.isi, H.
  now injection Hs.
Qed.

Lemma _getLogFileName_form (w : World) :
  fst (_getLogFileName w)
  = (_tableName (this w) ++ "_" ++ Z_toString (now w) ++ "_"
       ++ Z_toString (_pid (this w)) ++ _suffix (this w))%string
  /\ snd (_getLogFileName w) = w.
Proof. split; reflexivity. Qed.

Lemma _getLogFileName_eq_iff (w1 w2 : World) :
  same_config w1 w2 ->
  fst (_getLogFileName w1) = fst (_getLogFileName w2) <-> now w1 = now w2.
Proof.
  intros (_ & Hpid & Hsuf & Htab & _).
  destruct (_getLogFileName_form w1) as [-> _].
  destruct (_getLogFileName_form w2) as [-> _].
  rewrite Hpid, Hsuf, Htab. split.
  - intros H. apply append_cancel_l in H. cbn [append] in H.
    injection H as H. apply append_cancel_r in H.
    now apply Z_toString_inj.
  - now intros ->.
Qed.

(** [flush] on a non-empty buffer rotates. *)
Lemma flush_rotation (w : World) :
  0 < _numberOfEventsInFile (this w) -> rotation w (exec flush w).
Proof.
  intros H. apply Z.ltb_lt in H. unfold rotation.
  run_body. rewrite H. run_body. repeat split.
Qed.

(** [flush] on an empty buffer changes nothing but the idle timer. *)
Lemma flush_empty (w : World) :
  _numberOfEventsInFile (this w) <= 0 ->
  let w' := exec flush w in
  _fileName (this w') = _fileName (this w) /\
  _numberOfEventsInFile (this w') = _numberOfEventsInFile (this w) /\
  activeFlushOps (this w') = activeFlushOps (this w) /\
  pending w' = pending w /\ next_request w' = next_request w /\
  target w' = target w /\ writes w' = writes w /\ disk w' = disk w /\
  emitted w' = emitted w.
Proof.
  intros H. apply Z.ltb_ge in H. run_body. rewrite H. run_body. repeat split.
Qed.

(** Every [flush] arms one timer and keeps its handle in [ref]. *)
Lemma flush_arms_one (w : World) :
  timers (exec flush w) = (timers w ++ [next_handle w])%list /\
  ref (this (exec flush w)) = next_handle w /\
  next_handle (exec flush w) = S (next_handle w).
Proof. branches; repeat split. Qed.

Lemma step_handles_fresh (a : action) (w w' : World) :
  handles_fresh w -> step a w = Some w' -> handles_fresh w'.
Proof.
  unfold handles_fresh, remove_handle. intros [Hr Ht] H.
  assert (Hf : forall h, Forall (fun t => (t < S (next_handle w))%nat)
            (filter (fun t => negb (Nat.eqb t h)) (timers w) ++ [next_handle w])).
  { intros h. apply Forall_app. split.
    - apply Forall_forall. intros t Hin. apply filter_In in Hin.
      rewrite Forall_forall in Ht. destruct Hin as [Hin _].
      apply Ht in Hin. lia.
    - repeat constructor. }
  assert (Hg : forall h, Forall (fun t => (t < next_handle w)%nat)
            (filter (fun t => negb (Nat.eqb t h)) (timers w))).
  { intros h. apply Forall_forall. intros t Hin. apply filter_In in Hin.
    rewrite Forall_forall in Ht. now apply Ht. }
  assert (Hk : Forall (fun t => (t < S (next_handle w))%nat)
            (timers w ++ [next_handle w])).
  { apply Forall_app. split; [|repeat constructor].
    eapply Forall_impl; [|exact Ht]. cbv beta. intros; lia. }
  step_cases H; branches; split; auto; solve [apply Hf | apply Hg].
Qed.

Lemma reachable_handles_fresh (w : World) : reachable w -> handles_fresh w.
Proof.
  revert w. apply (reachable_invariant handles_fresh).
  - intros. unfold handles_fresh. cbn. split; [lia | repeat constructor].
  - intros a w w' Hw H. eapply step_handles_fresh; eassumption.
Qed.

Ltac bool_facts :=
  repeat match goal with
         | H : (_ <? _) = true |- _ => apply Z.ltb_lt in H
         | H : (_ <? _) = false |- _ => apply Z.ltb_ge in H
         | H : (_ <=? _) = true |- _ => apply Z.leb_le in H
         | H : (_ <=? _) = false |- _ => apply Z.leb_gt in H
         end.

(** The file identifier changes only by a rotation. *)
Lemma step_file_or_rotation (a : action) (w w' : World) :
  step a w = Some w' ->
  _fileName (this w') = _fileName (this w) \/ rotation w w'.
Proof.
  intros H. unfold rotation. step_cases H; branches;
    solve [left; reflexivity | right; repeat split].
Qed.

(** The row count becomes zero only by a rotation. *)
Lemma step_zero_rotation (a : action) (w w' : World) :
  0 <= _numberOfEventsInFile (this w) ->
  step a w = Some w' ->
  _numberOfEventsInFile (this w) <> 0 ->
  _numberOfEventsInFile (this w') = 0 ->
  rotation w w'.
Proof.
  intros Hn H. unfold rotation. step_cases H; branches; bool_facts;
    intros Hne Hz; solve [exfalso; lia | repeat split].
Qed.

(** C8: two rows are inserted within one millisecond into the example
    loader, which rotates at every row.  Both rotations generate the
    identifier [t_1005_42.log]: the second rotation hands to its flush
    operation the very file it redirects the writer to, and when that
    operation's read, upload and unlink have completed, the file the
    writer is still writing to has been removed from the disk. *)
Theorem rotation_identifier_reused :
  rotation example_started example_one_row /\
  rotation example_one_row example_two_rows /\
  _fileName (this example_one_row) = "t_1005_42.log" /\
  _fileName (this example_two_rows) = "t_1005_42.log" /\
  option_map (fun w => (target w, disk w,
                        existsb (String.eqb (target w)) (disk w)))
    (run same_millisecond_run example_loader)
  = Some ("/logs/t_1005_42.log", ["/logs/t_1000_42.log"], false).
Proof. unfold rotation. vm_compute. repeat split. Qed.

(** What the generated identifiers do satisfy: a rotation generates the
    table name, an underscore, the clock reading in milliseconds, an
    underscore, the process id and the suffix .log, and two rotations of
    one loader at different clock readings generate different
    identifiers. *)
Theorem rotation_identifiers (w1 w1' w2 w2' : World) (acts : list action) :
  reachable w1 -> run acts w1 = Some w2 ->
  rotation w1 w1' -> rotation w2 w2' ->
  _fileName (this w1')
  = (_tableName (this w1) ++ "_" ++ Z_toString (now w1) ++ "_"
       ++ Z_toString (_pid (this w1)) ++ ".log")%string
  /\ (_fileName (this w1') = _fileName (this w2') <-> now w1 = now w2)
  /\ (now w1 <> now w2 -> _fileName (this w1') <> _fileName (this w2')).
Proof.
  intros Hr Hrun (Hf1 & _) (Hf2 & _).
  assert (Hiff : _fileName (this w1') = _fileName (this w2') <-> now w1 = now w2).
  { rewrite Hf1, Hf2. apply _getLogFileName_eq_iff.
    eapply run_same_config; eassumption. }
  split; [|split].
  - rewrite Hf1. destruct (_getLogFileName_form w1) as [-> _].
    now rewrite (reachable_suffix w1 Hr).
  - exact Hiff.
  - intros Hne Heq. apply Hne. now apply Hiff.
Qed.

Lemma rotation_identifiers_witness :
  _fileName (this example_one_row) = "t_1005_42.log" /\
  (_fileName (this example_one_row) = _fileName (this example_later_row)
   <-> now example_started = now example_later) /\
  (now example_started <> now example_later ->
   _fileName (this example_one_row) <> _fileName (this example_later_row)).
Proof.
  apply (rotation_identifiers example_started example_one_row
           example_later example_later_row [Insert [JString "x"]; Tick 5]).
  - exists example_options, 42, 7%nat, 1000, [Tick 5]. reflexivity.
  - vm_compute. reflexivity.
  - unfold rotation. vm_compute. repeat split.
  - unfold rotation. vm_compute. repeat split.
Defined.

(** ** Inserting rows *)

Lemma insert_below_threshold (row : list value) (w : World) :
  _numberOfEventsInFile (this w) + 1 < _threshold (this w) ->
  let w' := exec (insert row) w in
  _numberOfEventsInFile (this w') = _numberOfEventsInFile (this w) + 1 /\
  _fileName (this w') = _fileName (this w) /\
  activeFlushOps (this w') = activeFlushOps (this w) /\
  timers w' = timers w /\ pending w' = pending w.
Proof.
  intros H. apply Z.leb_gt in H. run_body. rewrite H. run_body. repeat split.
Qed.

Lemma insert_at_threshold (row : list value) (w : World) :
  0 <= _numberOfEventsInFile (this w) ->
  _threshold (this w) <= _numberOfEventsInFile (this w) + 1 ->
  let w' := exec (insert row) w in
  _numberOfEventsInFile (this w') = 0 /\
  rotation w w' /\
  timers w' = (remove_handle (ref (this w)) (timers w) ++ [next_handle w])%list.
Proof.
  intros Hn H. apply Z.leb_le in H.
  assert (Hp : (0 <? _numberOfEventsInFile (this w) + 1) = true)
    by (apply Z.ltb_lt; lia).
  unfold rotation. run_body. rewrite H. run_body. rewrite Hp. run_body.
  repeat split.
Qed.

Lemma insert_count (row : list value) (w : World) :
  0 <= _numberOfEventsInFile (this w) ->
  _numberOfEventsInFile (this (exec (insert row) w))
  = count_after_insert (_threshold (this w)) (_numberOfEventsInFile (this w)).
Proof.
  intros Hn. unfold count_after_insert.
  destruct (_threshold (this w) <=? _numberOfEventsInFile (this w) + 1) eqn:H.
  - apply Z.leb_le in H. now apply insert_at_threshold.
  - apply Z.leb_gt in H. now apply insert_below_threshold.
Qed.

Lemma count_after_insert_nonneg (t n : Z) : 0 <= n -> 0 <= count_after_insert t n.
Proof. unfold count_after_insert. destruct (t <=? n + 1); lia. Qed.

(** A sequence of inserts always runs, and moves the count one insert at
    a time. *)
Lemma run_inserts (rows : list (list value)) (w : World) :
  0 <= _numberOfEventsInFile (this w) ->
  exists w',
    run (map Insert rows) w = Some w' /\
    _numberOfEventsInFile (this w')
    = fold_left (fun n _ => count_after_insert (_threshold (this w)) n) rows
        (_numberOfEventsInFile (this w)).
Proof.
  revert w. induction rows as [|row rows IH]; intros w Hn.
  - exists w. split; reflexivity.
  - cbn [map run step fold_left].
    pose proof (insert_count row w Hn) as Hc.
    assert (Hcfg : same_config w (exec (insert row) w))
      by (apply (step_same_config (Insert row)); reflexivity).
    destruct Hcfg as (_ & _ & _ & _ & _ & _ & _ & Ht & _).
    destruct (IH (exec (insert row) w)) as (w' & Hrun & Hcount).
    { rewrite Hc. now apply count_after_insert_nonneg. }
    exists w'. split; [exact Hrun|].
    rewrite Hcount, Ht, Hc. reflexivity.
Qed.

Lemma step_idle_armed (a : action) (w w' : World) :
  own_trigger a = true -> idle_armed w -> step a w = Some w' -> idle_armed w'.
Proof.
  unfold idle_armed. intros Ha Hw H.
  step_cases H; try discriminate Ha; branches; intros He;
    try discriminate He; specialize (Hw He).
  all: try (rewrite Hw; cbn [remove_handle filter]; rewrite Nat.eqb_refl;
            reflexivity).
  all: try exact Hw.
  all: rewrite Hw in *; cbn [existsb] in *; rewrite orb_false_r in *;
    match goal with
    | E : Nat.eqb _ _ = true |- _ => apply Nat.eqb_eq in E; subst h
    end;
    cbn [remove_handle filter]; rewrite Nat.eqb_refl; reflexivity.
Qed.

Lemma run_idle_armed (acts : list action) (w w' : World) :
  forallb own_trigger acts = true -> idle_armed w -> run acts w = Some w' ->
  idle_armed w'.
Proof.
  revert w. induction acts as [|a acts IH]; intros w Ha Hw H; simpl in *.
  - now injection H as <-.
  - apply andb_prop in Ha. destruct Ha as [Ha Hacts].
    destruct (step a w) as [w1|] eqn:Hs; [|discriminate H].
    apply (IH w1); auto. eapply step_idle_armed; eassumption.
Qed.

Lemma run_inserts_ended (rows : list (list value)) (w w' : World) :
  run (map Insert rows) w = Some w' -> ended w' = ended w.
Proof.
  revert w. induction rows as [|row rows IH]; intros w H; cbn [map run step] in H.
  - now injection H as <-.
  - rewrite (IH _ H). branches; reflexivity.
Qed.

(** C4: on a loader that is not closed, an insert below the threshold
    adds exactly one to the row count and rotates nothing; an insert that
    brings the count to the threshold cancels the idle timer in [ref],
    rotates in the same call and leaves the count at exactly zero, with
    one new timer armed; any sequence of inserts runs and moves the count
    in this way, insert by insert; and whatever happens to the loader, a
    count that was not zero becomes zero only by a rotation.  When the
    loader has been driven by inserts, its own timer and completions,
    with no direct call of [flush], the timer in [ref] is the one pending
    idle timer: below the threshold it stays pending, and at the
    threshold no timer that was pending is pending afterwards, and the
    one new timer is the only one. *)
Theorem insert_counts (row : list value) (w : World) :
  reachable w -> ended w = false ->
  let n := _numberOfEventsInFile (this w) in
  let w' := exec (insert row) w in
  (n + 1 < _threshold (this w) ->
     _numberOfEventsInFile (this w') = n + 1 /\
     _fileName (this w') = _fileName (this w) /\
     activeFlushOps (this w') = activeFlushOps (this w) /\
     timers w' = timers w /\ pending w' = pending w) /\
  (_threshold (this w) <= n + 1 ->
     _numberOfEventsInFile (this w') = 0 /\
     rotation w w' /\
     timers w' = (remove_handle (ref (this w)) (timers w) ++ [next_handle w])%list /\
     ~ In (ref (this w)) (timers w')) /\
  (forall options pid id clock acts,
     forallb own_trigger acts = true ->
     run acts (RedshiftBulkInsert options pid id clock) = Some w ->
     timers w = [ref (this w)] /\
     (n + 1 < _threshold (this w) ->
        timers w' = [ref (this w)] /\ ref (this w') = ref (this w)) /\
     (_threshold (this w) <= n + 1 ->
        timers w' = [next_handle w] /\
        ref (this w') = next_handle w /\
        forall h, In h (timers w) -> ~ In h (timers w'))) /\
  (forall rows, exists w2,
     run (map Insert rows) w = Some w2 /\
     ended w2 = false /\
     _numberOfEventsInFile (this w2)
     = fold_left (fun k _ => count_after_insert (_threshold (this w)) k) rows n) /\
  (forall a w2, step a w = Some w2 -> n <> 0 ->
     _numberOfEventsInFile (this w2) = 0 -> rotation w w2).
Proof.
  intros Hr Hopen. pose proof (reachable_count_nonneg w Hr) as Hn.
  destruct (reachable_handles_fresh w Hr) as [Hlt _].
  cbv zeta. split; [|split; [|split; [|split]]].
  - apply insert_below_threshold.
  - intros Ht. destruct (insert_at_threshold row w Hn Ht) as (H0 & Hrot & Htim).
    split; [exact H0 | split; [exact Hrot | split; [exact Htim|]]].
    rewrite Htim. intros Hin. apply in_app_or in Hin.
    destruct Hin as [Hin|[Hin|[]]].
    + apply filter_In in Hin. destruct Hin as [_ Hin].
      now rewrite Nat.eqb_refl in Hin.
    + lia.
  - intros options pid id clock acts Hown Hrun.
    assert (Harmed : timers w = [ref (this w)]).
    { apply (run_idle_armed acts (RedshiftBulkInsert options pid id clock) w Hown);
        [intros _; reflexivity | exact Hrun | exact Hopen]. }
    split; [exact Harmed|split].
    + intros Ht.
      destruct (insert_below_threshold row w Ht) as (_ & _ & _ & Htim & _).
      split; [now rewrite Htim|].
      apply Z.leb_gt in Ht. run_body. rewrite Ht. reflexivity.
    + intros Ht.
      destruct (insert_at_threshold row w Hn Ht) as (_ & _ & Htim).
      assert (Hnew : timers (exec (insert row) w) = [next_handle w]).
      { rewrite Htim, Harmed. cbn [remove_handle filter].
        now rewrite Nat.eqb_refl. }
      split; [exact Hnew|split].
      * assert (Hp : (0 <? _numberOfEventsInFile (this w) + 1) = true)
          by (apply Z.ltb_lt; lia).
        apply Z.leb_le in Ht. run_body. rewrite Ht. run_body. rewrite Hp.
        reflexivity.
      * intros h Hin. rewrite Hnew. rewrite Harmed in Hin.
        destruct Hin as [<-|[]]. intros [Heq|[]]. lia.
  - intros rows. destruct (run_inserts rows w Hn) as (w2 & Hrun & Hcount).
    exists w2. split; [exact Hrun|split; [|exact Hcount]].
    now rewrite (run_inserts_ended rows w w2 Hrun).
  - intros a w2. now apply step_zero_rotation.
Qed.

Lemma insert_counts_witness :
  timers example_later = [ref (this example_later)] /\
  (_numberOfEventsInFile (this example_later) + 1 < _threshold (this example_later) ->
   timers (exec (insert [JNull]) example_later) = [ref (this example_later)] /\
   ref (this (exec (insert [JNull]) example_later)) = ref (this example_later)) /\
  (_threshold (this example_later) <= _numberOfEventsInFile (this example_later) + 1 ->
   timers (exec (insert [JNull]) example_later) = [next_handle example_later] /\
   ref (this (exec (insert [JNull]) example_later)) = next_handle example_later /\
   forall h, In h (timers example_later) ->
             ~ In h (timers (exec (insert [JNull]) example_later))).
Proof.
  assert (Hrun : run [Tick 5; Insert [JString "x"]; Tick 5]
                   (RedshiftBulkInsert example_options 42 7 1000)
                 = Some example_later) by (vm_compute; reflexivity).
  assert (Hr : reachable example_later)
    by (exists example_options, 42, 7%nat, 1000,
          [Tick 5; Insert [JString "x"]; Tick 5]; exact Hrun).
  destruct (insert_counts [JNull] example_later Hr) as (_ & _ & H & _).
  - reflexivity.
  - apply (H example_options 42 7%nat 1000 [Tick 5; Insert [JString "x"]; Tick 5]).
    + reflexivity.
    + exact Hrun.
Defined.

(** ** The idle timer *)

Lemma step_one_timer (a : action) (w w' : World) :
  own_trigger a = true -> one_timer w -> step a w = Some w' -> one_timer w'.
Proof.
  unfold one_timer. intros Ha Hw H.
  assert (Hrm : remove_handle (ref (this w)) (timers w) = []).
  { destruct Hw as [-> | ->]; [reflexivity|].
    cbn [remove_handle filter]. now rewrite Nat.eqb_refl. }
  step_cases H; try discriminate Ha; branches; rewrite ?Hrm; auto.
  - (* the timer that fires is the one in [ref] *)
    destruct Hw as [Hw|Hw]; rewrite Hw in *; [discriminate|].
    cbn [existsb] in *. rewrite orb_false_r in *.
    match goal with E : Nat.eqb _ _ = true |- _ => apply Nat.eqb_eq in E; subst h end.
    cbn [remove_handle filter]. rewrite Nat.eqb_refl. right. reflexivity.
  - destruct Hw as [Hw|Hw]; rewrite Hw in *; [discriminate|].
    cbn [existsb] in *. rewrite orb_false_r in *.
    match goal with E : Nat.eqb _ _ = true |- _ => apply Nat.eqb_eq in E; subst h end.
    cbn [remove_handle filter]. rewrite Nat.eqb_refl. right. reflexivity.
Qed.

Lemma run_one_timer (acts : list action) (w w' : World) :
  forallb own_trigger acts = true -> one_timer w -> run acts w = Some w' ->
  one_timer w'.
Proof.
  revert w. induction acts as [|a acts IH]; intros w Ha Hw H; simpl in *.
  - now injection H as <-.
  - apply andb_prop in Ha. destruct Ha as [Ha Hacts].
    destruct (step a w) as [w1|] eqn:Hs; [|discriminate H].
    apply (IH w1); auto. eapply step_one_timer; eassumption.
Qed.

(** C5: a direct call of [flush] on the example loader, whose
    constructor has armed timer 0, arms timer 1 and cancels nothing: two
    idle timers are pending.  On the three-row loader the same call, one
    row and [close] leave timer 0 pending on the closed loader, since
    [close] cancels only the handle in [ref]; when that timer fires the
    closed loader rotates, issues the read of the rotated file and arms
    yet another timer. *)
Theorem direct_flush_two_timers :
  option_map timers (run [CallFlush] example_loader) = Some [0%nat; 1%nat] /\
  option_map (fun w => (timers w, ref (this w), ended w))
    (run [CallFlush; Insert [JString "x"]; Close] three_loader)
  = Some ([0%nat], 1%nat, true) /\
  option_map (fun w => (timers w, ended w, _numberOfEventsInFile (this w),
                        map snd (pending w)))
    (run leaked_timer_run three_loader)
  = Some ([2%nat], true, 0,
          [(ReadFile "/logs/t_1000_42.log", Bind_sendToS3 "t_1000_42.log" 1050)]).
Proof. vm_compute. repeat split. Qed.

(** What [flush] does keep: with a zero row count it rotates nothing
    (file identifier, row count, active-operations count, outstanding
    calls and the writer's target stay as they are); every [flush] ends
    by arming exactly one new idle timer, whose handle it keeps in [ref];
    and on the runs in which [flush] is entered only from the idle timer
    or from the threshold check of [insert], at most one idle timer is
    pending, the one in [ref]. *)
Theorem flush_rearms (w : World) (options : Options) (pid : Z) (id : nat)
  (clock : Z) (acts : list action) (w_end : World) :
  forallb own_trigger acts = true ->
  run acts (RedshiftBulkInsert options pid id clock) = Some w_end ->
  (_numberOfEventsInFile (this w) = 0 ->
     _fileName (this (exec flush w)) = _fileName (this w) /\
     _numberOfEventsInFile (this (exec flush w)) = 0 /\
     activeFlushOps (this (exec flush w)) = activeFlushOps (this w) /\
     pending (exec flush w) = pending w /\
     target (exec flush w) = target w) /\
  (timers (exec flush w) = (timers w ++ [next_handle w])%list /\
   ref (this (exec flush w)) = next_handle w) /\
  (List.length (timers w_end) <= 1)%nat /\
  one_timer w_end.
Proof.
  intros Ha Hrun. split; [|split].
  - intros H0.
    destruct (flush_empty w ltac:(lia)) as (Hf & Hc & Hops & Hp & _ & Ht & _).
    rewrite Hc. auto.
  - destruct (flush_arms_one w) as (Ht & Hr & _). auto.
  - assert (H1 : one_timer w_end).
    { eapply run_one_timer; [exact Ha| |exact Hrun]. right. reflexivity. }
    split; [|exact H1]. destruct H1 as [-> | ->]; simpl; lia.
Qed.

Lemma flush_rearms_witness :
  (List.length (timers example_later_row) <= 1)%nat /\
  one_timer example_later_row.
Proof.
  apply (flush_rearms example_loader example_options 42 7%nat 1000
           [Tick 5; Insert [JString "x"]; Tick 5; Insert [JString "y"]]
           example_later_row).
  - reflexivity.
  - vm_compute. reflexivity.
Defined.

(** ** The pipeline of a flush operation *)

Lemma lookup_request_In (id : nat) (ps : list (nat * (request * callback)))
  (rc : request * callback) :
  lookup_request id ps = Some rc -> In (id, rc) ps.
Proof.
  induction ps as [|[i x] ps IH]; simpl; [discriminate|].
  destruct (Nat.eqb i id) eqn:E.
  - intros H. injection H as ->. apply Nat.eqb_eq in E. subst. now left.
  - intros H. right. now apply IH.
Qed.

Lemma remove_request_incl (id : nat) (ps : list (nat * (request * callback)))
  (x : request * callback) :
  In x (map snd (remove_request id ps)) -> In x (map snd ps).
Proof.
  unfold remove_request. rewrite !in_map_iff.
  intros (y & Hy & Hin). apply filter_In in Hin. exists y. tauto.
Qed.

Lemma lookup_remove_other (id id' : nat) (ps : list (nat * (request * callback))) :
  id <> id' ->
  lookup_request id' (remove_request id ps) = lookup_request id' ps.
Proof.
  intros Hne. induction ps as [|[i x] ps IH]; [reflexivity|].
  cbn [remove_request filter fst lookup_request].
  destruct (Nat.eqb i id) eqn:E; cbn [negb].
  - apply Nat.eqb_eq in E. subst i.
    replace (Nat.eqb id id') with false by (symmetry; now apply Nat.eqb_neq).
    exact IH.
  - cbn [lookup_request]. destruct (Nat.eqb i id'); [reflexivity | exact IH].
Qed.

(** Every call issued after an action was issued before it or is one of
    the calls the action adds. *)
Lemma step_issued (a : action) (w w' : World) (x : request * callback) :
  step a w = Some w' ->
  In x (issued w') -> In x (issued w) \/ fresh_request a w x.
Proof.
  intros H. unfold issued, fresh_request.
  destruct a as [row| | |dt|h|id err data]; unfold step in H.
  - injection H as <-. branches; rewrite ?map_app, ?in_app_iff; cbn [map In snd];
      tauto || (intuition (subst; auto)).
  - injection H as <-. branches; rewrite ?map_app, ?in_app_iff; cbn [map In snd];
      tauto || (intuition (subst; auto)).
  - injection H as <-. branches; tauto.
  - injection H as <-. branches; tauto.
  - destruct (existsb (Nat.eqb h) (timers w)); [|discriminate H].
    injection H as <-. branches; rewrite ?map_app, ?in_app_iff; cbn [map In snd];
      tauto || (intuition (subst; auto)).
  - destruct (lookup_request id (pending w)) as [[r cb]|] eqn:Hl; [|discriminate H].
    apply lookup_request_In in Hl.
    assert (Hold : In (r, cb) (map snd (pending w)))
      by (apply in_map_iff; exists (id, (r, cb)); auto).
    destruct r, err, cb; cbn [settle invoke] in H; injection H as <-;
      branches; rewrite ?map_app, ?in_app_iff; cbn [map In snd done_request done_callback];
      rewrite ?in_app_iff;
      intros Hin;
      repeat match goal with
             | Hx : _ \/ _ |- _ => destruct Hx as [Hx|Hx]
             | Hx : False |- _ => destruct Hx
             | Hx : In _ (map snd (remove_request _ _)) |- _ =>
                 apply remove_request_incl in Hx
             end;
      subst; eauto 6.
Qed.

(** What an action adds to the history of completed calls and to the
    events emitted: only a completion adds anything, namely its own
    record, and one event when the callback ends the operation. *)
Lemma step_history (a : action) (w w' : World) :
  step a w = Some w' ->
  match a with
  | Completes id err data =>
      exists r cb data',
        lookup_request id (pending w) = Some (r, cb) /\
        (data' = data \/ exists p, r = Unlink p /\ data' = None) /\
        let c := {| done_request := r; done_callback := cb;
                    done_err := err; done_data := data' |} in
        completed w' = (completed w ++ [c])%list /\
        emitted w' = (emitted w ++
                      if ends_operation c then [event_of (self (this w)) c]
                      else [])%list
  | _ => completed w' = completed w /\ emitted w' = emitted w
  end.
Proof.
  intros H.
  destruct a as [row| | |dt|h|id err data]; unfold step in H.
  - injection H as <-. branches; split; reflexivity.
  - injection H as <-. branches; split; reflexivity.
  - injection H as <-. branches; split; reflexivity.
  - injection H as <-. branches; split; reflexivity.
  - destruct (existsb (Nat.eqb h) (timers w)); [|discriminate H].
    injection H as <-. branches; split; reflexivity.
  - destruct (lookup_request id (pending w)) as [[r cb]|] eqn:Hl; [|discriminate H].
    destruct r, err, cb; cbn [settle invoke] in H; injection H as <-;
      eexists _, _, _; (split; [reflexivity|]);
      (split; [first [right; eexists; split; reflexivity | left; reflexivity]|]);
      unfold ends_operation, event_of;
      cbn [terminal done_callback done_err done_data];
      branches; rewrite ?app_nil_r;
      split; reflexivity.
Qed.

Lemma step_completed_incl (a : action) (w w' : World) :
  step a w = Some w' -> incl (completed w) (completed w').
Proof.
  intros H. apply step_history in H. destruct a;
    try (destruct H as [-> _]; apply incl_refl).
  destruct H as (r & cb & data' & _ & _ & -> & _). now apply incl_appl, incl_refl.
Qed.

(** The events emitted are, in order, the events of the completed calls
    that end an operation: (err, result, the empty string, start, this). *)
Lemma reachable_events (w : World) :
  reachable w ->
  emitted w = map (event_of (self (this w))) (filter ends_operation (completed w)).
Proof.
  revert w.
  apply (reachable_invariant (fun w =>
    emitted w = map (event_of (self (this w))) (filter ends_operation (completed w)))).
  - reflexivity.
  - intros a w w' IH H.
    pose proof (step_same_config _ _ _ H) as (Hself & _).
    apply step_history in H. rewrite Hself.
    destruct a; try (destruct H as [-> ->]; exact IH).
    destruct H as (r & cb & data' & _ & _ & -> & ->).
    rewrite filter_app, map_app, IH. f_equal. cbn [filter].
    destruct (ends_operation _); reflexivity.
Qed.

Lemma _getCopyQuery_same_config (f : string) (w w' : World) :
  same_config w w' -> fst (_getCopyQuery f w') = fst (_getCopyQuery f w).
Proof.
  intros (_ & _ & _ & Ht & Hf & _ & _ & _ & Hb & Hi & Hs).
  rewrite !_getCopyQuery_spaced. congruence.
Qed.

Lemma read_ok_incl (logs f : string) (s : Z) (done done' : list Completion) :
  incl done done' -> read_ok logs f s done -> read_ok logs f s done'.
Proof. intros Hi [data H]. exists data. now apply Hi. Qed.

Lemma uploaded_incl (f : string) (s : Z) (done done' : list Completion) :
  incl done done' -> uploaded f s done -> uploaded f s done'.
Proof. intros Hi (body & bucket & data & H). exists body, bucket, data. now apply Hi. Qed.

Lemma stage_ok_later (w w' : World) (x : request * callback) :
  same_config w w' -> incl (completed w) (completed w') ->
  stage_ok w x -> stage_ok w' x.
Proof.
  intros Hc Hi. pose proof Hc as (_ & _ & _ & _ & _ & Hlogs & _).
  destruct x as [[p|body key bucket|p|q] cb]; unfold stage_ok.
  - intros (f & s & -> & ->). exists f, s. now rewrite Hlogs.
  - intros (s & -> & H). exists s. rewrite Hlogs.
    split; [reflexivity | eapply read_ok_incl; eassumption].
  - intros (f & s & -> & -> & H). exists f, s. rewrite Hlogs.
    repeat split. eapply uploaded_incl; eassumption.
  - intros (f & s & -> & -> & H). exists f, s.
    rewrite (_getCopyQuery_same_config f w w' Hc).
    repeat split. eapply uploaded_incl; eassumption.
Qed.

Lemma pending_issued (id : nat) (x : request * callback) (w : World) :
  lookup_request id (pending w) = Some x -> In x (issued w).
Proof.
  intros H. apply lookup_request_In in H. unfold issued.
  apply in_or_app. left. apply in_map_iff. exists (id, x). auto.
Qed.

Lemma step_staged (a : action) (w w' : World) :
  staged w -> step a w = Some w' -> staged w'.
Proof.
  intros Hst H x Hin.
  pose proof (step_same_config _ _ _ H) as Hc.
  pose proof (step_completed_incl _ _ _ H) as Hi.
  destruct (step_issued _ _ _ x H Hin) as [Hold|Hnew].
  { eapply stage_ok_later; eauto. }
  pose proof Hc as (_ & _ & _ & _ & _ & Hlogs & _).
  pose proof (step_history _ _ _ H) as Hh.
  unfold fresh_request in Hnew.
  destruct a as [row| | |dt|h|id err data]; try contradiction;
    try (subst x; unfold stage_ok; rewrite Hlogs; eexists _, _; split; reflexivity).
  destruct Hh as (r & cb & data' & Hl & _ & Hdone & _).
  rewrite Hl in Hnew.
  pose proof (Hst _ (pending_issued _ _ _ Hl)) as Hrc.
  assert (Hlast : In {| done_request := r; done_callback := cb;
                        done_err := err; done_data := data' |} (completed w'))
    by (rewrite Hdone; apply in_or_app; right; now left).
  destruct cb as [f s|f s|s|s], err as [e|]; try contradiction.
  - (* a successful read: the upload *)
    destruct Hnew as [body ->].
    destruct r as [p|? ? ?|p|q]; unfold stage_ok in Hrc.
    + destruct Hrc as (f' & s' & Heq & ->). injection Heq as <- <-.
      unfold stage_ok. exists s. split; [reflexivity|].
      exists data'. now rewrite Hlogs.
    + destruct Hrc as (? & Heq & _). discriminate Heq.
    + destruct Hrc as (? & ? & Heq & _). discriminate Heq.
    + destruct Hrc as (? & ? & Heq & _). discriminate Heq.
  - (* a successful upload: the unlink and the load command *)
    assert (Hup : uploaded f s (completed w')).
    { destruct r as [p|body key bucket|p|q]; unfold stage_ok in Hrc.
      + destruct Hrc as (? & ? & Heq & _). discriminate Heq.
      + destruct Hrc as (s' & Heq & _). injection Heq as <- <-.
        exists body, bucket, data'. exact Hlast.
      + destruct Hrc as (? & ? & Heq & _). discriminate Heq.
      + destruct Hrc as (? & ? & Heq & _). discriminate Heq. }
    destruct Hnew as [-> | ->]; unfold stage_ok; exists f, s.
    + rewrite Hlogs. auto.
    + rewrite (_getCopyQuery_same_config f w w' Hc). auto.
Qed.

Lemma reachable_staged (w : World) : reachable w -> staged w.
Proof.
  revert w. apply (reachable_invariant staged).
  - intros options pid id clock x Hin. destruct Hin.
  - intros a w w' Hw H. eapply step_staged; eassumption.
Qed.

Lemma Forall_remove_request (P : nat * (request * callback) -> Prop) (id : nat)
  (ps : list (nat * (request * callback))) :
  Forall P ps -> Forall P (remove_request id ps).
Proof.
  intros H. apply Forall_forall. intros x Hin. apply filter_In in Hin.
  rewrite Forall_forall in H. now apply H.
Qed.

Lemma step_requests_fresh (a : action) (w w' : World) :
  requests_fresh w -> step a w = Some w' -> requests_fresh w'.
Proof.
  unfold requests_fresh. intros Hw H.
  assert (Hup : forall n ps, Forall (fun p => (fst p < n)%nat) ps ->
                             Forall (fun p : nat * (request * callback) =>
                                       (fst p < S n)%nat) ps).
  { intros n ps Hps. eapply Forall_impl; [|exact Hps]. cbv beta. intros; lia. }
  step_cases H; branches;
    repeat (apply Forall_app; split);
    repeat (apply Forall_cons; [cbn [fst]; lia|]);
    try apply Forall_nil;
    repeat apply Hup;
    try apply Forall_remove_request; assumption.
Qed.

Lemma reachable_requests_fresh (w : World) : reachable w -> requests_fresh w.
Proof.
  revert w. apply (reachable_invariant requests_fresh).
  - intros. apply Forall_nil.
  - intros a w w' Hw H. eapply step_requests_fresh; eassumption.
Qed.

Lemma lookup_request_fresh (n : nat) (ps qs : list (nat * (request * callback))) :
  Forall (fun p => (fst p < n)%nat) ps ->
  lookup_request n (ps ++ qs) = lookup_request n qs.
Proof.
  induction ps as [|[i x] ps IH]; intros H; [reflexivity|].
  inversion H as [|? ? Hi Hps]; subst. cbn [fst] in Hi.
  cbn [app lookup_request].
  replace (Nat.eqb i n) with false by (symmetry; apply Nat.eqb_neq; lia).
  now apply IH.
Qed.

Lemma remove_path_absent (p : string) (d : list string) : ~ In p (remove_path p d).
Proof.
  unfold remove_path. intros H. apply filter_In in H. destruct H as [_ H].
  now rewrite String.eqb_refl in H.
Qed.

(** The unlink completing without error removes the file; the load
    command completing, with or without error, touches no file. *)
Lemma complete_unlink (id : nat) (p : string) (s : Z) (data : payload) (w : World) :
  lookup_request id (pending w) = Some (Unlink p, Bind_onRemoved s) ->
  exists w', step (Completes id None data) w = Some w' /\
             disk w' = remove_path p (disk w) /\
             pending w' = remove_request id (pending w).
Proof.
  intros Hl. unfold step. rewrite Hl. cbn [settle invoke].
  eexists. split; [reflexivity|]. branches. split; reflexivity.
Qed.

Lemma complete_query (id : nat) (q : string) (s : Z) (err : option error)
  (data : payload) (w : World) :
  lookup_request id (pending w) = Some (Query q, Bind_onSentCopyToRedshift s) ->
  exists w', step (Completes id err data) w = Some w' /\
             disk w' = disk w /\
             pending w' = remove_request id (pending w).
Proof.
  intros Hl. unfold step. rewrite Hl. cbn [settle invoke].
  eexists. split; [reflexivity|]. destruct err; branches; split; reflexivity.
Qed.

(** Once the unlink and the load command are both outstanding, the file
    is gone when both have completed, in whichever order they complete
    and whatever the load command reports. *)
Lemma unlink_and_load_any_order (n m : nat) (p q : string) (s s' : Z)
  (err : option error) (data : payload) (w : World) :
  n <> m ->
  lookup_request n (pending w) = Some (Unlink p, Bind_onRemoved s) ->
  lookup_request m (pending w) = Some (Query q, Bind_onSentCopyToRedshift s') ->
  exists w1 w2,
    run [Completes n None None; Completes m err data] w = Some w1 /\
    run [Completes m err data; Completes n None None] w = Some w2 /\
    ~ In p (disk w1) /\ ~ In p (disk w2).
Proof.
  intros Hne Hn Hm.
  destruct (complete_unlink n p s None w Hn) as (wa & Ha & Hda & Hpa).
  destruct (complete_query m q s' err data wa) as (w1 & H1 & Hd1 & _).
  { rewrite Hpa, lookup_remove_other; auto. }
  destruct (complete_query m q s' err data w Hm) as (wb & Hb & Hdb & Hpb).
  destruct (complete_unlink n p s None wb) as (w2 & H2 & Hd2 & _).
  { rewrite Hpb, lookup_remove_other; auto. }
  exists w1, w2. cbn [run]. rewrite Ha, H1, Hb, H2.
  repeat split.
  - rewrite Hd1, Hda. apply remove_path_absent.
  - rewrite Hd2. apply remove_path_absent.
Qed.

(** A failed completion adds no call. *)
Lemma failure_issues_nothing (id : nat) (e : error) (data : payload)
  (w w' : World) (x : request * callback) :
  step (Completes id (Some e) data) w = Some w' ->
  In x (issued w') -> In x (issued w).
Proof.
  intros H Hin. destruct (step_issued _ _ _ x H Hin) as [Hold|Hnew]; [exact Hold|].
  unfold fresh_request in Hnew.
  destruct (lookup_request id (pending w)) as [[r [ | | | ]]|]; contradiction.
Qed.

(** C2: when the read or the upload fails, the operation ends with that
    error (one event carrying it, one log entry), no further call is
    issued (no upload, no load command, no unlink) and no file leaves the
    disk; when the upload succeeds, the unlink of the local file is
    issued in that very turn, ahead of the load command and without
    waiting for it, and once the unlink has completed the file is gone
    whatever the load command reports and whichever of the two completes
    first; a failing load command changes nothing on disk; and no unlink
    is ever issued for a file whose upload has not succeeded. *)
Theorem flush_failure_policy (w w' : World) (id : nat) (r : request)
  (cb : callback) (err : option error) (data : payload) :
  reachable w ->
  lookup_request id (pending w) = Some (r, cb) ->
  step (Completes id err data) w = Some w' ->
  (forall e, err = Some e ->
     (exists p, r = ReadFile p) \/
     (exists body key bucket, r = PutObject body key bucket) ->
     pending w' = remove_request id (pending w) /\
     (forall x, In x (issued w') -> In x (issued w)) /\
     disk w' = disk w /\
     logged w' = (logged w ++ [e])%list /\
     emitted w' = (emitted w ++
        [{| arg_err := Some e; arg_result := data; arg_third := "";
            arg_start := start_of cb; arg_loader := self (this w) |}])%list) /\
  (forall body key bucket, err = None -> r = PutObject body key bucket ->
     pending w' =
       (remove_request id (pending w) ++
        [(next_request w,
          (Unlink (path_join (_pathToLogs (this w)) key),
           Bind_onRemoved (start_of cb)));
         (S (next_request w),
          (Query (fst (_getCopyQuery key w)),
           Bind_onSentCopyToRedshift (start_of cb)))])%list /\
     emitted w' = emitted w /\
     disk w' = disk w /\
     forall err' data', exists w1 w2,
       run [Completes (next_request w) None None;
            Completes (S (next_request w)) err' data'] w' = Some w1 /\
       run [Completes (S (next_request w)) err' data';
            Completes (next_request w) None None] w' = Some w2 /\
       ~ In (path_join (_pathToLogs (this w)) key) (disk w1) /\
       ~ In (path_join (_pathToLogs (this w)) key) (disk w2)) /\
  (forall e q, err = Some e -> r = Query q ->
     disk w' = disk w /\
     (forall x, In x (issued w') -> In x (issued w)) /\
     exists f s, q = fst (_getCopyQuery f w) /\ uploaded f s (completed w)) /\
  (forall p cb', In (Unlink p, cb') (issued w) ->
     exists f s, p = path_join (_pathToLogs (this w)) f /\
                 uploaded f s (completed w)).
Proof.
  intros Hr Hl H.
  pose proof (reachable_staged w Hr) as Hst.
  pose proof (Hst _ (pending_issued _ _ _ Hl)) as Hrc.
  pose proof (reachable_requests_fresh w Hr) as Hfresh.
  split; [|split; [|split]].
  - intros e -> Hstage.
    split; [|split; [eauto using failure_issues_nothing|]].
    + clear Hstage. unfold step in H. rewrite Hl in H.
      destruct r, cb; cbn [settle invoke] in H; injection H as <-;
        branches; reflexivity.
    + destruct Hstage as [[p ->]|(body & key & bucket & ->)];
        unfold stage_ok in Hrc.
      * destruct Hrc as (f & s & -> & _).
        unfold step in H. rewrite Hl in H. cbn [settle invoke] in H.
        injection H as <-. branches. repeat split.
      * destruct Hrc as (s & -> & _).
        unfold step in H. rewrite Hl in H. cbn [settle invoke] in H.
        injection H as <-. branches. repeat split.
  - intros body key bucket -> ->. unfold stage_ok in Hrc.
    destruct Hrc as (s & -> & _).
    unfold step in H. rewrite Hl in H. cbn [settle invoke] in H.
    injection H as <-.
    match goal with |- context [exec ?m ?x] => set (w1 := exec m x) end.
    assert (Hp : pending w1
                 = (remove_request id (pending w) ++
                    [(next_request w,
                      (Unlink (path_join (_pathToLogs (this w)) key),
                       Bind_onRemoved s));
                     (S (next_request w),
                      (Query (fst (_getCopyQuery key w)),
                       Bind_onSentCopyToRedshift s))])%list).
    { subst w1. branches. rewrite <- app_assoc. reflexivity. }
    split; [exact Hp|]. split; [subst w1; branches; reflexivity|].
    split; [subst w1; branches; reflexivity|].
    intros err' data'.
    apply (unlink_and_load_any_order (next_request w) (S (next_request w))
             (path_join (_pathToLogs (this w)) key) (fst (_getCopyQuery key w))
             s s err' data').
    + lia.
    + rewrite Hp, lookup_request_fresh.
      * cbn [lookup_request]. now rewrite Nat.eqb_refl.
      * now apply Forall_remove_request.
    + rewrite Hp, lookup_request_fresh.
      * cbn [lookup_request].
        replace (Nat.eqb (next_request w) (S (next_request w))) with false
          by (symmetry; apply Nat.eqb_neq; lia).
        now rewrite Nat.eqb_refl.
      * apply Forall_remove_request.
        eapply Forall_impl; [|exact Hfresh]. cbv beta. intros; lia.
  - intros e q -> ->. unfold stage_ok in Hrc.
    destruct Hrc as (f & s & -> & -> & Hup).
    split; [|split; [eauto using failure_issues_nothing | eauto]].
    unfold step in H. rewrite Hl in H. cbn [settle invoke] in H.
    injection H as <-. branches. reflexivity.
  - intros p cb' Hin. apply Hst in Hin. unfold stage_ok in Hin.
    destruct Hin as (f & s & _ & -> & Hup). eauto.
Qed.

Lemma flush_failure_policy_witness :
  pending example_read_failed = [] /\
  (forall x, In x (issued example_read_failed) -> In x (issued example_one_row)) /\
  disk example_read_failed = disk example_one_row /\
  logged example_read_failed = ["ENOENT"] /\
  emitted example_read_failed =
    [{| arg_err := Some "ENOENT"; arg_result := None; arg_third := "";
        arg_start := 1005; arg_loader := 7%nat |}].
Proof.
  assert (Hr : reachable example_one_row).
  { exists example_options, 42, 7%nat, 1000, [Tick 5; Insert [JString "x"]].
    vm_compute. reflexivity. }
  assert (Hl : lookup_request 0 (pending example_one_row)
               = Some (ReadFile "/logs/t_1000_42.log",
                       Bind_sendToS3 "t_1000_42.log" 1005))
    by (vm_compute; reflexivity).
  assert (Hs : step (Completes 0 (Some "ENOENT") None) example_one_row
               = Some example_read_failed)
    by (vm_compute; reflexivity).
  destruct (flush_failure_policy _ _ _ _ _ _ _ Hr Hl Hs) as (H & _).
  apply (H "ENOENT"); [reflexivity | left; eexists; reflexivity].
Defined.

(** ** The terminal event *)

Lemma completed_issued (c : Completion) (w : World) :
  In c (completed w) -> In (done_request c, done_callback c) (issued w).
Proof.
  intros H. unfold issued. apply in_or_app. right.
  apply in_map_iff. exists c. auto.
Qed.

(** The timestamp of every callback is the one bound to the read of some
    rotated file, that is, the clock reading at a rotation. *)
Lemma start_bound_at_rotation (w : World) (x : request * callback) :
  staged w -> In x (issued w) ->
  exists f,
    In (ReadFile (path_join (_pathToLogs (this w)) f),
        Bind_sendToS3 f (start_of (snd x))) (issued w).
Proof.
  intros Hst Hin.
  assert (Hread : forall f s, read_ok (_pathToLogs (this w)) f s (completed w) ->
            In (ReadFile (path_join (_pathToLogs (this w)) f), Bind_sendToS3 f s)
               (issued w)).
  { intros f s [data H]. now apply completed_issued in H. }
  assert (Hup : forall f s, uploaded f s (completed w) ->
            In (ReadFile (path_join (_pathToLogs (this w)) f), Bind_sendToS3 f s)
               (issued w)).
  { intros f s (body & bucket & data & H). apply completed_issued in H.
    apply Hst in H. cbn [done_request done_callback stage_ok] in H.
    destruct H as (s' & Heq & H). injection Heq as <-. now apply Hread. }
  pose proof (Hst x Hin) as Hx.
  destruct x as [[p|body key bucket|p|q] cb]; unfold stage_ok in Hx; cbn [snd].
  - destruct Hx as (f & s & -> & ->). exists f. exact Hin.
  - destruct Hx as (s & -> & H). exists key. now apply Hread.
  - destruct Hx as (f & s & -> & _ & H). exists f. now apply Hup.
  - destruct Hx as (f & s & -> & _ & H). exists f. now apply Hup.
Qed.

(** The read of the rotated file [t_1000_42.log] fails, and the event
    that ends the operation has the empty string as its third argument,
    not the name of that file. *)
Lemma flush_event_without_file :
  map done_request (completed example_read_failed)
  = [ReadFile "/logs/t_1000_42.log"] /\
  map arg_third (emitted example_read_failed) = [""] /\
  map arg_third (emitted example_read_failed) <> ["t_1000_42.log"].
Proof. vm_compute. repeat split. discriminate. Qed.

(** C3, amended: every [flush] event emitted carries, in order, the
    error or null and the result payload that the completing call passed,
    the empty string, the timestamp bound when the operation's file was
    rotated, and the loader itself; the events emitted are exactly those
    of the completed calls that end an operation, in order of
    completion. *)
Theorem flush_event_arguments (w : World) (e : FlushEvent) :
  reachable w -> In e (emitted w) ->
  emitted w = map (event_of (self (this w))) (filter ends_operation (completed w)) /\
  exists c,
    In c (completed w) /\ ends_operation c = true /\
    arg_err e = done_err c /\
    arg_result e = done_data c /\
    arg_third e = "" /\
    arg_start e = start_of (done_callback c) /\
    arg_loader e = self (this w) /\
    exists f,
      In (ReadFile (path_join (_pathToLogs (this w)) f),
          Bind_sendToS3 f (arg_start e)) (issued w).
Proof.
  intros Hr Hin. pose proof (reachable_events w Hr) as He.
  split; [exact He|].
  rewrite He in Hin. apply in_map_iff in Hin. destruct Hin as (c & <- & Hc).
  apply filter_In in Hc. destruct Hc as [Hc Hend].
  exists c. repeat (split; [assumption || reflexivity|]).
  apply (start_bound_at_rotation w (done_request c, done_callback c)).
  - now apply reachable_staged.
  - now apply completed_issued.
Qed.

Lemma flush_event_arguments_witness :
  exists c,
    In c (completed example_read_failed) /\ ends_operation c = true /\
    Some "ENOENT" = done_err c /\
    None = done_data c /\
    "" = "" /\
    1005 = start_of (done_callback c) /\
    7%nat = self (this example_read_failed) /\
    exists f,
      In (ReadFile (path_join (_pathToLogs (this example_read_failed)) f),
          Bind_sendToS3 f 1005) (issued example_read_failed).
Proof.
  apply (flush_event_arguments example_read_failed
           {| arg_err := Some "ENOENT"; arg_result := None; arg_third := "";
              arg_start := 1005; arg_loader := 7%nat |}).
  - exists example_options, 42, 7%nat, 1000,
      [Tick 5; Insert [JString "x"]; Completes 0 (Some "ENOENT") None].
    vm_compute. reflexivity.
  - vm_compute. left. reflexivity.
Defined.

(** ** The active-operations counter *)

(** C1: on the example loader one operation runs to the end without any
    error; [activeFlushOps], 1 after the rotation, is -1 at the end, and
    two [flush] events have been emitted for the one operation, the first
    by the unlink callback and the second by the load callback. *)
Theorem double_terminal_event :
  activeFlushOps (this example_one_row) = 1 /\
  option_map (fun w => (activeFlushOps (this w), emitted w))
    (run example_success example_loader)
  = Some (-1,
          [{| arg_err := None; arg_result := None; arg_third := "";
              arg_start := 1005; arg_loader := 7%nat |};
           {| arg_err := None; arg_result := Some "ok"; arg_third := "";
              arg_start := 1005; arg_loader := 7%nat |}]).
Proof. split; vm_compute; reflexivity. Qed.

(** Whatever state the loader is in when the unlink and the load command
    of one operation are outstanding, their two callbacks lower
    [activeFlushOps] by two and emit two events. *)
Lemma unlink_and_load_end_twice (n m : nat) (p q : string) (s s' : Z)
  (err1 err2 : option error) (data : payload) (w : World) :
  n <> m ->
  lookup_request n (pending w) = Some (Unlink p, Bind_onRemoved s) ->
  lookup_request m (pending w) = Some (Query q, Bind_onSentCopyToRedshift s') ->
  exists w1,
    run [Completes n err1 None; Completes m err2 data] w = Some w1 /\
    activeFlushOps (this w1) = activeFlushOps (this w) - 2 /\
    List.length (emitted w1) = S (S (List.length (emitted w))).
Proof.
  intros Hne Hn Hm. cbn [run]. unfold step at 1. rewrite Hn.
  assert (Hm' : forall w0, pending w0 = remove_request n (pending w) ->
                  lookup_request m (pending w0)
                  = Some (Query q, Bind_onSentCopyToRedshift s')).
  { intros w0 ->. now rewrite lookup_remove_other. }
  destruct err1 as [e1|]; cbn [settle invoke];
    (match goal with
     | |- context [step _ ?x] => unfold step; rewrite (Hm' x) by (branches; reflexivity)
     end);
    cbn [settle invoke]; eexists; (split; [reflexivity|]);
    destruct err2; branches; rewrite ?length_app; cbn [List.length];
    split; lia.
Qed.

(** When the read fails the operation ends once: one decrement, one
    event. *)
Lemma read_failure_ends_once (id : nat) (p f : string) (s : Z) (e : error)
  (data : payload) (w : World) :
  lookup_request id (pending w) = Some (ReadFile p, Bind_sendToS3 f s) ->
  exists w1,
    step (Completes id (Some e) data) w = Some w1 /\
    activeFlushOps (this w1) = activeFlushOps (this w) - 1 /\
    List.length (emitted w1) = S (List.length (emitted w)).
Proof.
  intros Hl. unfold step. rewrite Hl. cbn [settle invoke].
  eexists. split; [reflexivity|]. branches. rewrite length_app. cbn [List.length].
  split; lia.
Qed.

(** ** The retry policy *)

Lemma always_failing_attempts (o : RetryPolicy.RetryOptions) (failures : nat)
  (a : Z) :
  RetryPolicy.always_failing o failures a
  = map (RetryPolicy.applied_delay o)
      (RetryPolicy.attempts a
         (Nat.min failures (Z.to_nat (RetryPolicy.maxRetries o - a)))).
Proof.
  revert a. induction failures as [|n IH]; intros a; [reflexivity|].
  cbn [RetryPolicy.always_failing]. unfold RetryPolicy.on_failure.
  destruct (a <? RetryPolicy.maxRetries o) eqn:E.
  - apply Z.ltb_lt in E.
    replace (Z.to_nat (RetryPolicy.maxRetries o - a))
      with (S (Z.to_nat (RetryPolicy.maxRetries o - (a + 1)))) by lia.
    cbn [Nat.min RetryPolicy.attempts map]. rewrite IH. reflexivity.
  - apply Z.ltb_ge in E.
    replace (Z.to_nat (RetryPolicy.maxRetries o - a)) with O by lia.
    reflexivity.
Qed.

Lemma attempts_length (a : Z) (n : nat) : List.length (RetryPolicy.attempts a n) = n.
Proof. revert a. induction n as [|n IH]; intros a; simpl; [reflexivity | now rewrite IH]. Qed.

Lemma attempts_nth (a : Z) (n k : nat) :
  (k < n)%nat -> nth k (RetryPolicy.attempts a n) 0 = a + Z.of_nat k.
Proof.
  revert a k. induction n as [|n IH]; intros a k Hk; [lia|].
  destruct k as [|k]; cbn [RetryPolicy.attempts nth]; [lia|].
  rewrite IH by lia. lia.
Qed.

(** C9: for a policy with [maxRetries = N] and a lineage on which every
    flush fails, exactly N retries are scheduled, however many failures
    follow, and the failure after the N-th retry schedules nothing; the
    delay before the retry with attempt number k is
    min(maxDelay, retryCalculation(k, timeSlot)), which is at most
    maxDelay.  Attempt numbers are the values of the attempt counter,
    0 for the first retry. *)
Theorem retry_schedule (o : RetryPolicy.RetryOptions) (failures : nat) :
  (Z.to_nat (RetryPolicy.maxRetries o) < failures)%nat ->
  let scheduled := RetryPolicy.always_failing o failures 0 in
  List.length scheduled = Z.to_nat (RetryPolicy.maxRetries o) /\
  RetryPolicy.on_failure o (RetryPolicy.maxRetries o) = None /\
  (forall k, (k < Z.to_nat (RetryPolicy.maxRetries o))%nat ->
     RetryPolicy.on_failure o (Z.of_nat k) = Some (nth k scheduled 0) /\
     nth k scheduled 0
     = Z.min (RetryPolicy.maxDelay o)
         (RetryPolicy.retryCalculation o (Z.of_nat k) (RetryPolicy.timeSlot o)) /\
     nth k scheduled 0 <= RetryPolicy.maxDelay o).
Proof.
  intros Hf. cbv zeta. rewrite always_failing_attempts.
  rewrite Z.sub_0_r, Nat.min_r by lia.
  split; [|split].
  - now rewrite length_map, attempts_length.
  - unfold RetryPolicy.on_failure. now rewrite Z.ltb_irrefl.
  - intros k Hk.
    assert (Hnth : nth k (map (RetryPolicy.applied_delay o)
                     (RetryPolicy.attempts 0 (Z.to_nat (RetryPolicy.maxRetries o)))) 0
                   = RetryPolicy.applied_delay o (Z.of_nat k)).
    { rewrite (nth_indep _ 0 (RetryPolicy.applied_delay o 0))
        by now rewrite length_map, attempts_length.
      rewrite map_nth, attempts_nth by exact Hk. reflexivity. }
    rewrite Hnth. unfold RetryPolicy.applied_delay, RetryPolicy.on_failure.
    replace (Z.of_nat k <? RetryPolicy.maxRetries o) with true
      by (symmetry; apply Z.ltb_lt; lia).
    repeat split. apply Z.le_min_l.
Qed.

Lemma retry_schedule_witness :
  List.length (RetryPolicy.always_failing RetryPolicy.example_policy 10 0) = 3%nat /\
  RetryPolicy.always_failing RetryPolicy.example_policy 10 0 = [100; 200; 350].
Proof.
  destruct (retry_schedule RetryPolicy.example_policy 10) as (H & _).
  - vm_compute. lia.
  - split; [exact H | reflexivity].
Defined.

(** * Further properties of the encoder *)

Lemma digit_char_plain (d : nat) (c : ascii) :
  special c -> Ascii.eqb (digit_char d) c = false.
Proof.
  intros [-> | ->]; unfold digit_char;
    pose proof (Nat.mod_upper_bound d 10 ltac:(discriminate)) as Hlt;
    remember (Nat.modulo d 10) as m eqn:Hm; clear Hm;
    do 10 (destruct m as [|m]; [reflexivity|]); exfalso; lia.
Qed.

Lemma digits_plain (ds : list nat) (c : ascii) :
  special c -> occurs c (digits_to_string ds) = false.
Proof.
  intros Hc. induction ds as [|d ds IH]; [reflexivity|].
  cbn [digits_to_string occurs]. now rewrite digit_char_plain, IH.
Qed.

Lemma zeros_plain (k : nat) (c : ascii) : special c -> occurs c (zeros k) = false.
Proof.
  intros [-> | ->]; induction k as [|k IH]; try reflexivity; exact IH.
Qed.

Lemma uint_plain (d : Decimal.uint) (c : ascii) :
  special c -> occurs c (NilEmpty.string_of_uint d) = false.
Proof.
  intros [-> | ->]; induction d; try reflexivity; exact IHd.
Qed.

Lemma Z_toString_plain (z : Z) (c : ascii) :
  special c -> occurs c (Z_toString z) = false.
Proof.
  intros Hc. unfold Z_toString, NilEmpty.string_of_int.
  destruct (Z.to_int z) as [d|d].
  - now apply uint_plain.
  - cbn [occurs]. rewrite uint_plain by exact Hc.
    destruct Hc as [-> | ->]; reflexivity.
Qed.

Lemma choice_plain (b : bool) (m p : string) (c : ascii) :
  occurs c m = false -> occurs c p = false ->
  occurs c (if b then m else p) = false.
Proof. now destruct b. Qed.

Lemma literal_plain (c : ascii) (s : string) :
  occurs "\"%char s = false -> occurs "|"%char s = false ->
  special c -> occurs c s = false.
Proof. now intros H1 H2 [-> | ->]. Qed.

Lemma Number_toString_plain (x : number) (c : ascii) :
  special c -> occurs c (Number_toString x) = false.
Proof.
  intros Hc.
  destruct x as [|neg|neg|neg ds n]; unfold Number_toString.
  - now apply literal_plain.
  - destruct neg; now apply literal_plain.
  - now apply literal_plain.
  - rewrite occurs_append.
    rewrite (choice_plain neg "-" "" c) by now apply literal_plain.
    rewrite orb_false_l.
    repeat apply choice_plain.
    + now rewrite occurs_append, digits_plain, zeros_plain.
    + rewrite !occurs_append, !digits_plain by exact Hc.
      rewrite (literal_plain c ".") by (reflexivity || exact Hc). reflexivity.
    + rewrite !occurs_append, zeros_plain, digits_plain by exact Hc.
      rewrite (literal_plain c "0.") by (reflexivity || exact Hc). reflexivity.
    + rewrite !occurs_append, digits_plain, Z_toString_plain by exact Hc.
      rewrite (choice_plain (n - 1 <? 0) "-" "+" c) by now apply literal_plain.
      rewrite (literal_plain c "e") by (reflexivity || exact Hc).
      cbn [orb].
      destruct (skipn 1 ds) as [|d rest]; [reflexivity|].
      rewrite occurs_append, digits_plain by exact Hc.
      rewrite (literal_plain c ".") by (reflexivity || exact Hc). reflexivity.
Qed.

Lemma escape_string_append (a b : string) :
  escape_string (a ++ b) = escape_string a ++ escape_string b.
Proof.
  induction a as [|x a IH]; [reflexivity|].
  cbn [append escape_string]. now rewrite IH, append_assoc.
Qed.

Lemma escape_char_cases (a : ascii) :
  (a = "\"%char /\ escape_char a = "\\") \/
  (a = "|"%char /\ escape_char a = "\|") \/
  (Ascii.eqb a "\"%char = false /\ Ascii.eqb a "|"%char = false /\
   escape_char a = String a "").
Proof.
  unfold escape_char.
  destruct (Ascii.eqb a "\"%char) eqn:Hb.
  - apply Ascii.eqb_eq in Hb. now left.
  - destruct (Ascii.eqb a "|"%char) eqn:Hp.
    + apply Ascii.eqb_eq in Hp. right. now left.
    + right. right. auto.
Qed.

Lemma unescape_escape_string (s : string) : unescape (escape_string s) = s.
Proof.
  induction s as [|a s IH]; [reflexivity|].
  cbn [escape_string].
  destruct (escape_char_cases a) as [[-> ->]|[[-> ->]|(Hb & Hp & ->)]].
  - cbn [append unescape]. cbn. now rewrite IH.
  - cbn [append unescape]. cbn. now rewrite IH.
  - cbn [append unescape]. now rewrite Hb, IH.
Qed.

(** A string without the two special characters is its own escape, and
    reads back as itself. *)
Lemma escape_string_plain (s : string) :
  occurs "\"%char s = false -> occurs "|"%char s = false -> escape_string s = s.
Proof.
  induction s as [|a s IH]; [reflexivity|].
  cbn [occurs escape_string]. intros Hb Hp.
  apply orb_false_iff in Hb. apply orb_false_iff in Hp.
  destruct Hb as [Hb Hb'], Hp as [Hp Hp'].
  unfold escape_char. rewrite Hb, Hp. cbn [append]. now rewrite IH.
Qed.

Lemma cons_head_cons_head (p q : string) (l : list string) :
  cons_head p (cons_head q l) = cons_head (p ++ q) l.
Proof. destruct l as [|f l]; cbn [cons_head]; now rewrite ?append_assoc. Qed.

Lemma split_fields_nonempty (s : string) : split_fields s <> [].
Proof.
  induction s as [|a s IH]; [discriminate|].
  cbn [split_fields].
  destruct (Ascii.eqb a "\"%char).
  - destruct s as [|b s]; [discriminate|].
    destruct (split_fields s); discriminate.
  - destruct (Ascii.eqb a "|"%char); [discriminate|].
    destruct (split_fields s); discriminate.
Qed.

Lemma cons_head_empty (l : list string) : l <> [] -> cons_head "" l = l.
Proof. destruct l; [contradiction | reflexivity]. Qed.

(** An escaped string is never cut: it stays in the first field of
    whatever follows it. *)
Lemma split_fields_escape_string (s tail : string) :
  split_fields (escape_string s ++ tail)
  = cons_head (escape_string s) (split_fields tail).
Proof.
  induction s as [|a s IH].
  - cbn [escape_string append]. symmetry. apply cons_head_empty, split_fields_nonempty.
  - cbn [escape_string]. rewrite append_assoc.
    destruct (escape_char_cases a) as [[-> ->]|[[-> ->]|(Hb & Hp & ->)]].
    + cbn [append split_fields]. cbn. rewrite IH. apply cons_head_cons_head.
    + cbn [append split_fields]. cbn. rewrite IH. apply cons_head_cons_head.
    + cbn [append split_fields]. rewrite Hb, Hp, IH. apply cons_head_cons_head.
Qed.

Lemma encode_field_escaped (v : value) :
  encode_field v = NULL \/ exists s, encode_field v = escape_string s.
Proof.
  destruct v as [| |s|x|b]; cbn [encode_field]; auto; right.
  - now exists s.
  - exists (Number_toString x). symmetry.
    apply escape_string_plain; apply Number_toString_plain; [left|right]; reflexivity.
  - exists (if b then "true" else "false"). now destruct b.
Qed.

Lemma split_fields_encode_field (v : value) (tail : string) :
  split_fields (encode_field v ++ tail)
  = cons_head (encode_field v) (split_fields tail).
Proof.
  destruct (encode_field_escaped v) as [-> | [s ->]].
  - reflexivity.
  - apply split_fields_escape_string.
Qed.

Lemma concat_cons_nonempty (sep x : string) (xs : list string) :
  xs <> [] -> String.concat sep (x :: xs) = x ++ sep ++ String.concat sep xs.
Proof. destruct xs; [contradiction | reflexivity]. Qed.

Lemma split_fields_encode_line (row : list value) :
  row <> [] -> split_fields (encode_line row) = map encode_field row.
Proof.
  unfold encode_line. induction row as [|v row IH]; [contradiction|]. intros _.
  destruct row as [|v' row].
  - cbn [map String.concat].
    rewrite <- (append_nil_r (encode_field v)) at 1.
    rewrite split_fields_encode_field. cbn [split_fields cons_head].
    now rewrite append_nil_r.
  - change (map encode_field (v :: v' :: row))
      with (encode_field v :: map encode_field (v' :: row)).
    rewrite concat_cons_nonempty by discriminate.
    rewrite split_fields_encode_field.
    change ("|" ++ String.concat "|" (map encode_field (v' :: row)))
      with (String "|"%char (String.concat "|" (map encode_field (v' :: row)))).
    cbn [split_fields]. cbn [Ascii.eqb Bool.eqb]. cbn [cons_head].
    rewrite IH by discriminate. now rewrite append_nil_r.
Qed.

Lemma decode_encode_field (v : value) :
  decode_field (encode_field v) = written_form v.
Proof.
  unfold decode_field.
  destruct v as [| |s|x|b]; cbn [encode_field written_form ToString];
    try reflexivity.
  - replace (String.eqb (escape_string s) NULL) with false
      by (symmetry; apply String.eqb_neq, escape_string_not_NULL).
    now rewrite unescape_escape_string.
  - replace (String.eqb (Number_toString x) NULL) with false
      by (symmetry; apply String.eqb_neq, Number_toString_not_NULL).
    f_equal.
    rewrite <- (escape_string_plain (Number_toString x)) at 1
      by (apply Number_toString_plain; solve [left; reflexivity | right; reflexivity]).
    apply unescape_escape_string.
  - destruct b; reflexivity.
Qed.

(** X1: a line read back under the escape rules gives the row that was
    written: for a row with at least one value, cutting the encoded line
    at its unescaped bars and unescaping each field returns, position by
    position, null for null and undefined, the same string for a string,
    and the string conversion for a number or a boolean.  The empty row
    is written as the empty line, which reads back as one empty
    string. *)
Theorem line_round_trip (row : list value) :
  row <> [] ->
  split_fields (_rowToLine row) = map _escapeValue row /\
  decode_line (_rowToLine row) = map written_form row /\
  List.length (decode_line (_rowToLine row)) = List.length row /\
  decode_line (_rowToLine []) = [JString ""].
Proof.
  intros Hne.
  assert (Hs : split_fields (_rowToLine row) = map encode_field row)
    by (rewrite _rowToLine_encode_line; now apply split_fields_encode_line).
  assert (Hd : decode_line (_rowToLine row) = map written_form row).
  { unfold decode_line. rewrite Hs, map_map.
    apply map_ext, decode_encode_field. }
  split; [|split; [exact Hd|split]].
  - rewrite Hs. apply map_ext. intros v. symmetry. apply _escapeValue_encode_field.
  - now rewrite Hd, length_map.
  - reflexivity.
Qed.

Lemma line_round_trip_witness :
  decode_line (_rowToLine [JString "a|b\c"; JUndefined; JNumber (Finite true [1; 5]%nat 1);
                           JString "\N"; JBoolean true])
  = [JString "a|b\c"; JNull; JString "-1.5"; JString "\N"; JString "true"].
Proof.
  apply (line_round_trip [JString "a|b\c"; JUndefined; JNumber (Finite true [1; 5]%nat 1);
                          JString "\N"; JBoolean true]).
  discriminate.
Defined.

Lemma encode_field_written_form (v : value) :
  encode_field (written_form v) = encode_field v.
Proof.
  destruct v as [| |s|x|b]; cbn [written_form encode_field ToString];
    try reflexivity.
  - apply escape_string_plain; apply Number_toString_plain;
      solve [left; reflexivity | right; reflexivity].
  - destruct b; reflexivity.
Qed.

(** X2: two values are encoded to the same field exactly when they are
    the same once written, that is, up to taking undefined for null and a
    number or boolean for the string of its conversion; in particular two
    different strings never share an encoding, and no string is encoded
    like null. *)
Theorem same_field_iff (v1 v2 : value) :
  (_escapeValue v1 = _escapeValue v2 <-> written_form v1 = written_form v2) /\
  (forall s1 s2, _escapeValue (JString s1) = _escapeValue (JString s2) -> s1 = s2) /\
  (forall s, _escapeValue (JString s) <> _escapeValue JNull).
Proof.
  assert (Hiff : forall a b,
            _escapeValue a = _escapeValue b <-> written_form a = written_form b).
  { intros a b. rewrite !_escapeValue_encode_field. split; intros H.
    - now rewrite <- !decode_encode_field, H.
    - now rewrite <- (encode_field_written_form a), H, encode_field_written_form. }
  split; [apply Hiff|split].
  - intros s1 s2 H. apply Hiff in H. now injection H.
  - intros s H. apply Hiff in H. discriminate H.
Qed.

Lemma concat_split_field (pre post : list string) (a b sep nl : string) :
  String.concat sep (pre ++ (a ++ nl ++ b)%string :: post)
  = (String.concat sep (pre ++ [a]) ++ nl ++ String.concat sep (b :: post))%string.
Proof.
  induction pre as [|p pre IH].
  - cbn [app]. destruct post as [|q post].
    + reflexivity.
    + rewrite !concat_cons_nonempty by discriminate.
      cbn [String.concat]. now rewrite !append_assoc.
  - cbn [app].
    rewrite (concat_cons_nonempty sep p (pre ++ _ :: post))
      by (destruct pre; discriminate).
    rewrite (concat_cons_nonempty sep p (pre ++ [a]))
      by (destruct pre; discriminate).
    now rewrite IH, !append_assoc.
Qed.

(** X3: a newline inside a string value is written as it is, so it ends
    the record: the bytes written for a row whose string field holds
    [a], a newline and [b] are the bytes written for two rows, the first
    ending with the field [a] and the second starting with the field
    [b]. *)
Theorem newline_splits_record (pre post : list value) (a b : string) :
  (_rowToLine (pre ++ JString (a ++ NEWLINE ++ b) :: post) ++ NEWLINE)%string
  = ((_rowToLine (pre ++ [JString a]) ++ NEWLINE)
       ++ (_rowToLine (JString b :: post) ++ NEWLINE))%string.
Proof.
  rewrite !_rowToLine_encode_line. unfold encode_line.
  rewrite !map_app. cbn [map encode_field].
  rewrite !escape_string_append.
  change (escape_string NEWLINE) with NEWLINE.
  rewrite concat_split_field. now rewrite !append_assoc.
Qed.

(** * Further properties of the loader *)

Lemma reachable_init (options : Options) (pid : Z) (id : nat) (clock : Z) :
  reachable (RedshiftBulkInsert options pid id clock).
Proof. exists options, pid, id, clock, []. reflexivity. Qed.

(** With a threshold of at least one the count stays below it. *)
Lemma reachable_count_below (w : World) :
  reachable w -> 1 <= _threshold (this w) ->
  _numberOfEventsInFile (this w) < _threshold (this w).
Proof.
  revert w.
  apply (reachable_invariant (fun w =>
    1 <= _threshold (this w) ->
    _numberOfEventsInFile (this w) < _threshold (this w))).
  - intros. cbn in *. lia.
  - intros a w w' IH H. step_cases H; branches; bool_facts; intros; try lia;
      apply IH; lia.
Qed.

Lemma insert_tally (row : list value) (w : World) :
  0 <= _numberOfEventsInFile (this w) < _threshold (this w) ->
  let c := _numberOfEventsInFile (this w) in
  let t := _threshold (this w) in
  let w' := exec (insert row) w in
  _numberOfEventsInFile (this w') = (c + 1) mod t /\
  activeFlushOps (this w') = activeFlushOps (this w) + (c + 1) / t /\
  Z.of_nat (List.length (pending w'))
  = Z.of_nat (List.length (pending w)) + (c + 1) / t /\
  _threshold (this w') = t.
Proof.
  intros Hc. cbv zeta.
  assert (Ht : _threshold (this (exec (insert row) w)) = _threshold (this w)).
  { assert (Hcfg : same_config w (exec (insert row) w))
      by (apply (step_same_config (Insert row)); reflexivity).
    now destruct Hcfg as (_ & _ & _ & _ & _ & _ & _ & Ht & _). }
  destruct (Z.eq_dec (_numberOfEventsInFile (this w) + 1) (_threshold (this w)))
    as [E|E].
  - destruct (insert_at_threshold row w) as (H0 & Hrot & _); [lia | lia |].
    destruct Hrot as (_ & _ & Hp & Ha & _).
    rewrite H0, Ha, Hp, length_app, E, Z.mod_same, Z.div_same by lia.
    cbn [List.length].
    split; [reflexivity | split; [lia | split; [lia | exact Ht]]].
  - destruct (insert_below_threshold row w) as (Hn & _ & Ha & _ & Hp); [lia|].
    rewrite Hn, Ha, Hp, Z.mod_small, Z.div_small by lia.
    split; [reflexivity | split; [lia | split; [lia | exact Ht]]].
Qed.

Lemma run_inserts_tally (rows : list (list value)) (w : World) :
  0 <= _numberOfEventsInFile (this w) < _threshold (this w) ->
  let t := _threshold (this w) in
  let total := _numberOfEventsInFile (this w) + Z.of_nat (List.length rows) in
  exists w',
    run (map Insert rows) w = Some w' /\
    _numberOfEventsInFile (this w') = total mod t /\
    activeFlushOps (this w') = activeFlushOps (this w) + total / t /\
    Z.of_nat (List.length (pending w'))
    = Z.of_nat (List.length (pending w)) + total / t.
Proof.
  revert w. induction rows as [|row rows IH]; intros w Hc; cbv zeta.
  - exists w. cbn [map run List.length Z.of_nat].
    rewrite Z.add_0_r, Z.mod_small, Z.div_small by lia.
    repeat split; lia.
  - destruct (insert_tally row w Hc) as (Hn & Ha & Hp & Ht).
    assert (Hpos : 0 < _threshold (this w)) by lia.
    destruct (IH (exec (insert row) w)) as (w' & Hrun & Hn' & Ha' & Hp').
    { rewrite Hn, Ht. apply Z.mod_pos_bound. lia. }
    exists w'. cbn [map run step]. split; [exact Hrun|].
    rewrite Hn', Ha', Hp', Hn, Ha, Hp, Ht.
    replace (_numberOfEventsInFile (this w) + Z.of_nat (List.length (row :: rows)))
      with ((_numberOfEventsInFile (this w) + 1) + Z.of_nat (List.length rows))
      by (cbn [List.length]; lia).
    set (c1 := _numberOfEventsInFile (this w) + 1).
    set (t := _threshold (this w)) in *.
    set (n := Z.of_nat (List.length rows)).
    assert (Hdiv : (c1 + n) / t = c1 / t + (c1 mod t + n) / t).
    { rewrite (Z.div_mod c1 t) at 1 by lia.
      rewrite <- Z.add_assoc, (Z.mul_comm t), Z.div_add_l by lia. reflexivity. }
    rewrite Z.add_mod_idemp_l by lia.
    repeat split; lia.
Qed.

(** X4: on a loader that is not closed, with threshold t of at least
    one, whatever happened before, a sequence of n inserts runs to the
    end and leaves the loader open; with c rows buffered at the start, it
    leaves (c + n) mod t rows buffered and has rotated (c + n) / t times,
    each rotation adding one to [activeFlushOps] and issuing one read;
    the buffered count is always below t. *)
Theorem inserts_rotate_every_threshold (w : World) (rows : list (list value)) :
  reachable w -> ended w = false -> 1 <= _threshold (this w) ->
  let t := _threshold (this w) in
  let total := _numberOfEventsInFile (this w) + Z.of_nat (List.length rows) in
  0 <= _numberOfEventsInFile (this w) < t /\
  exists w',
    run (map Insert rows) w = Some w' /\
    ended w' = false /\
    _numberOfEventsInFile (this w') = total mod t /\
    activeFlushOps (this w') = activeFlushOps (this w) + total / t /\
    Z.of_nat (List.length (pending w'))
    = Z.of_nat (List.length (pending w)) + total / t.
Proof.
  intros Hr Hopen Ht. cbv zeta.
  assert (Hc : 0 <= _numberOfEventsInFile (this w) < _threshold (this w))
    by (split; [now apply reachable_count_nonneg | now apply reachable_count_below]).
  split; [exact Hc|].
  destruct (run_inserts_tally rows w Hc) as (w' & Hrun & Hrest).
  exists w'. split; [exact Hrun|split; [|exact Hrest]].
  now rewrite (run_inserts_ended rows w w' Hrun).
Qed.

Lemma inserts_rotate_every_threshold_witness :
  0 <= _numberOfEventsInFile (this default_loader) < 1000 /\
  exists w',
    run (map Insert (repeat [JNull; JString "x"] 2500)) default_loader = Some w' /\
    ended w' = false /\
    _numberOfEventsInFile (this w') = 500 /\
    activeFlushOps (this w') = 2 /\
    Z.of_nat (List.length (pending w')) = 2.
Proof.
  pose proof (inserts_rotate_every_threshold default_loader
                (repeat [JNull; JString "x"] 2500)
                (reachable_init default_options 42 7%nat 1000)) as H.
  cbv zeta in H. rewrite repeat_length in H.
  apply H; [reflexivity | vm_compute; discriminate].
Defined.

(** Only [insert] writes, and it writes the encoded line once. *)
Lemma step_writes (a : action) (w w' : World) :
  step a w = Some w' ->
  writes w' = (writes w ++
               match a with
               | Insert row => [(target w, (_rowToLine row ++ NEWLINE)%string)]
               | _ => []
               end)%list.
Proof.
  intros H. step_cases H; branches; rewrite ?app_nil_r; reflexivity.
Qed.

(** X5: whatever else happens in between (rotations, timers, failing or
    succeeding uploads, close), the data handed to the file writer is
    exactly the encoded lines of the rows inserted, each once, each
    followed by a newline, in the order of the inserts. *)
Theorem writes_are_inserted_lines (acts : list action) (w w' : World) :
  run acts w = Some w' ->
  map snd (writes w') = (map snd (writes w) ++ inserted_lines acts)%list.
Proof.
  revert w. induction acts as [|a acts IH]; intros w H; cbn [run] in H.
  - injection H as <-. cbn [inserted_lines flat_map]. now rewrite app_nil_r.
  - destruct (step a w) as [w1|] eqn:Hs; [|discriminate H].
    rewrite (IH w1 H), (step_writes a w w1 Hs), map_app.
    unfold inserted_lines. cbn [flat_map]. rewrite <- app_assoc.
    f_equal. f_equal. now destruct a.
Qed.

Lemma writes_are_inserted_lines_witness :
  map snd (writes example_later_row)
  = [("x" ++ NEWLINE)%string; ("y" ++ NEWLINE)%string].
Proof.
  apply (writes_are_inserted_lines
           [Tick 5; Insert [JString "x"]; Tick 5; Insert [JString "y"]]
           example_loader example_later_row).
  vm_compute. reflexivity.
Defined.

(** The writer always points at the file named in [_fileName]. *)
Lemma reachable_target (w : World) :
  reachable w -> target w = path_join (_pathToLogs (this w)) (_fileName (this w)).
Proof.
  revert w.
  apply (reachable_invariant (fun w =>
    target w = path_join (_pathToLogs (this w)) (_fileName (this w)))).
  - reflexivity.
  - intros a w w' IH H. step_cases H; branches; solve [exact IH | reflexivity].
Qed.

(** X10: the file writer and [_fileName] never part: in every state the
    loader can reach the writer's target is the current file name inside
    the log directory, so a row is always appended to the file that the
    next rotation will hand to a flush operation, and that rotation reads
    exactly the path the rows were written to. *)
Theorem rows_go_to_current_file (w : World) (row : list value) :
  reachable w ->
  target w = path_join (_pathToLogs (this w)) (_fileName (this w)) /\
  writes (exec (insert row) w)
  = (writes w ++
     [(path_join (_pathToLogs (this w)) (_fileName (this w)),
       (_rowToLine row ++ NEWLINE)%string)])%list /\
  (forall w', rotation w w' ->
     In (ReadFile (target w), Bind_sendToS3 (_fileName (this w)) (now w))
        (map snd (pending w'))).
Proof.
  intros Hr. pose proof (reachable_target w Hr) as Ht.
  split; [exact Ht|split].
  - rewrite insert_writes, Ht. reflexivity.
  - intros w' (_ & _ & Hp & _). rewrite Hp, Ht, map_app.
    apply in_or_app. right. now left.
Qed.

Lemma rows_go_to_current_file_witness :
  target example_later = "/logs/t_1005_42.log" /\
  writes (exec (insert [JString "y"]) example_later)
  = (writes example_later ++ [("/logs/t_1005_42.log", ("y" ++ NEWLINE)%string)])%list.
Proof.
  destruct (rows_go_to_current_file example_later [JString "y"]) as (H1 & H2 & _).
  - exists example_options, 42, 7%nat, 1000, [Tick 5; Insert [JString "x"]; Tick 5].
    vm_compute. reflexivity.
  - split; [exact H1 | exact H2].
Defined.

(** ** Accounting for [activeFlushOps] *)

Lemma remove_request_absent (id : nat) (ps : list (nat * (request * callback))) :
  ~ In id (map fst ps) -> remove_request id ps = ps.
Proof.
  induction ps as [|[i x] ps IH]; intros Hn; [reflexivity|].
  cbn [remove_request filter fst]. cbn [map fst In] in Hn.
  replace (Nat.eqb i id) with false by (symmetry; apply Nat.eqb_neq; tauto).
  cbn [negb]. f_equal. apply IH. tauto.
Qed.

Lemma remove_request_length (id : nat) (ps : list (nat * (request * callback)))
  (x : request * callback) :
  NoDup (map fst ps) -> lookup_request id ps = Some x ->
  S (List.length (remove_request id ps)) = List.length ps.
Proof.
  induction ps as [|[i y] ps IH]; intros Hnd Hl; [discriminate Hl|].
  cbn [map fst] in Hnd. inversion Hnd as [|? ? Hni Hnd']; subst.
  cbn [lookup_request] in Hl. cbn [remove_request filter fst List.length].
  destruct (Nat.eqb i id) eqn:E; cbn [negb].
  - apply Nat.eqb_eq in E. subst i.
    fold (remove_request id ps). now rewrite remove_request_absent.
  - cbn [List.length]. f_equal. now apply IH.
Qed.

Lemma NoDup_remove_request (id : nat) (ps : list (nat * (request * callback))) :
  NoDup (map fst ps) -> NoDup (map fst (remove_request id ps)).
Proof.
  induction ps as [|[i y] ps IH]; intros Hnd; [constructor|].
  cbn [map fst] in Hnd. inversion Hnd as [|? ? Hni Hnd']; subst.
  cbn [remove_request filter fst]. destruct (negb (Nat.eqb i id)).
  - cbn [map fst]. constructor; [|now apply IH].
    intros Hin. apply Hni. apply in_map_iff in Hin.
    destruct Hin as (p & Hp & Hin). apply filter_In in Hin.
    apply in_map_iff. exists p. tauto.
  - now apply IH.
Qed.

Lemma NoDup_fresh_request (n : nat) (x : request * callback)
  (ps : list (nat * (request * callback))) :
  Forall (fun p => (fst p < n)%nat) ps -> NoDup (map fst ps) ->
  NoDup (map fst (ps ++ [(n, x)])).
Proof.
  intros Hf Hnd. rewrite map_app. cbn [map fst].
  apply NoDup_app; [exact Hnd | repeat constructor; intros [] |].
  intros i Hin [<-|[]]. apply in_map_iff in Hin.
  destruct Hin as (p & Hp & Hin). rewrite Forall_forall in Hf.
  apply Hf in Hin. lia.
Qed.

Lemma Forall_fresh_request (n : nat) (x : request * callback)
  (ps : list (nat * (request * callback))) :
  Forall (fun p => (fst p < n)%nat) ps ->
  Forall (fun p => (fst p < S n)%nat) (ps ++ [(n, x)]).
Proof.
  intros Hf. apply Forall_app. split.
  - eapply Forall_impl; [|exact Hf]. cbv beta. intros; lia.
  - repeat constructor.
Qed.

Lemma step_ids_unique (a : action) (w w' : World) :
  requests_fresh w -> ids_unique w -> step a w = Some w' -> ids_unique w'.
Proof.
  unfold requests_fresh, ids_unique. intros Hf Hnd H.
  pose proof (fun id => NoDup_remove_request id _ Hnd) as Hrm.
  pose proof (fun id => Forall_remove_request _ id _ Hf) as Hfr.
  step_cases H; branches;
    repeat first
      [ assumption
      | apply Hrm
      | apply NoDup_fresh_request
      | apply Forall_fresh_request
      | apply Hfr ].
Qed.

Lemma reachable_ids_unique (w : World) : reachable w -> ids_unique w.
Proof.
  intros Hr.
  assert (H : requests_fresh w /\ ids_unique w); [|tauto].
  revert w Hr.
  apply (reachable_invariant (fun w => requests_fresh w /\ ids_unique w)).
  - intros. split; constructor.
  - intros a w w' [Hf Hu] H. split.
    + eapply step_requests_fresh; eassumption.
    + eapply step_ids_unique; eassumption.
Qed.

Lemma step_tally (a : action) (w w' : World) :
  ids_unique w -> step a w = Some w' ->
  activeFlushOps (this w') - Z.of_nat (List.length (pending w'))
    + Z.of_nat (successful_uploads (completed w'))
  = activeFlushOps (this w) - Z.of_nat (List.length (pending w))
    + Z.of_nat (successful_uploads (completed w)).
Proof.
  unfold ids_unique, successful_uploads. intros Hnd H.
  destruct a as [row| | |dt|h|id err data]; unfold step in H.
  - injection H as <-. branches; rewrite ?length_app; cbn [List.length]; lia.
  - injection H as <-. branches; rewrite ?length_app; cbn [List.length]; lia.
  - injection H as <-. branches; lia.
  - injection H as <-. branches; lia.
  - destruct (existsb (Nat.eqb h) (timers w)); [|discriminate H].
    injection H as <-. branches; rewrite ?length_app; cbn [List.length]; lia.
  - destruct (lookup_request id (pending w)) as [[r cb]|] eqn:Hl; [|discriminate H].
    pose proof (remove_request_length id _ _ Hnd Hl) as Hlen.
    destruct r, err, cb; cbn [settle invoke] in H; injection H as <-;
      branches; rewrite ?filter_app, ?length_app;
      cbn [filter done_callback done_err List.length app]; lia.
Qed.

(** X6: in every state the loader can reach, [activeFlushOps] is the
    number of outstanding asynchronous calls minus the number of uploads
    that have succeeded so far.  So once every call has completed the
    counter is not back at zero but at minus the number of successful
    uploads, and it is zero at rest only if no upload ever succeeded. *)
Theorem active_ops_account (w : World) :
  reachable w ->
  activeFlushOps (this w)
  = Z.of_nat (List.length (pending w))
    - Z.of_nat (successful_uploads (completed w)) /\
  (pending w = [] ->
   activeFlushOps (this w) = - Z.of_nat (successful_uploads (completed w))) /\
  (pending w = [] ->
   (activeFlushOps (this w) = 0 <-> successful_uploads (completed w) = O)).
Proof.
  intros Hr.
  assert (H : activeFlushOps (this w) - Z.of_nat (List.length (pending w))
              + Z.of_nat (successful_uploads (completed w)) = 0).
  { assert (Hboth : ids_unique w /\ requests_fresh w /\
                    activeFlushOps (this w) - Z.of_nat (List.length (pending w))
                    + Z.of_nat (successful_uploads (completed w)) = 0); [|tauto].
    revert w Hr.
    apply (reachable_invariant (fun w =>
      ids_unique w /\ requests_fresh w /\
      activeFlushOps (this w) - Z.of_nat (List.length (pending w))
      + Z.of_nat (successful_uploads (completed w)) = 0)).
    - intros. repeat split; constructor.
    - intros a w w' (Hu & Hf & Ht) H. split; [|split].
      + eapply step_ids_unique; eassumption.
      + eapply step_requests_fresh; eassumption.
      + rewrite (step_tally a w w' Hu H). exact Ht. }
  split; [lia|]. split; intros Hp; rewrite Hp in H; cbn [List.length] in H; lia.
Qed.

Lemma active_ops_account_witness :
  option_map (fun w => activeFlushOps (this w)) (run example_success example_loader)
  = Some (Z.of_nat 0 - Z.of_nat 1).
Proof.
  destruct (run example_success example_loader) as [w|] eqn:Hrun.
  - cbn [option_map]. f_equal.
    destruct (active_ops_account w) as (H & _).
    + exists example_options, 42, 7%nat, 1000, example_success. exact Hrun.
    + rewrite H. f_equal; f_equal.
      * vm_compute in Hrun. injection Hrun as <-. reflexivity.
      * vm_compute in Hrun. injection Hrun as <-. reflexivity.
  - vm_compute in Hrun. discriminate Hrun.
Defined.

(** ** The error log *)

Lemma step_logged (a : action) (w w' : World) :
  step a w = Some w' ->
  match a with
  | Completes id err data =>
      exists r cb data',
        completed w' = (completed w ++
          [{| done_request := r; done_callback := cb;
              done_err := err; done_data := data' |}])%list /\
        logged w' = (logged w ++
          log_entry {| done_request := r; done_callback := cb;
                       done_err := err; done_data := data' |})%list
  | _ => completed w' = completed w /\ logged w' = logged w
  end.
Proof.
  intros H.
  destruct a as [row| | |dt|h|id err data]; unfold step in H.
  - injection H as <-. branches; split; reflexivity.
  - injection H as <-. branches; split; reflexivity.
  - injection H as <-. branches; split; reflexivity.
  - injection H as <-. branches; split; reflexivity.
  - destruct (existsb (Nat.eqb h) (timers w)); [|discriminate H].
    injection H as <-. branches; split; reflexivity.
  - destruct (lookup_request id (pending w)) as [[r cb]|] eqn:Hl; [|discriminate H].
    destruct r, err, cb; cbn [settle invoke] in H; injection H as <-;
      eexists _, _, _; (split; [branches; reflexivity|]);
      unfold log_entry; cbn [done_callback done_err];
      branches; rewrite ?app_nil_r; reflexivity.
Qed.

(** X7: the error log holds, in order of completion, the error of every
    read, upload and load command that failed, each once, and nothing
    else: a failing unlink is never logged, although its error is passed
    on in the [flush] event like the others. *)
Theorem log_is_failed_calls (w : World) :
  reachable w ->
  logged w = flat_map log_entry (completed w) /\
  (forall c, In c (completed w) ->
     forall p e, done_request c = Unlink p -> done_err c = Some e ->
       log_entry c = [] /\
       In {| arg_err := Some e; arg_result := done_data c; arg_third := "";
             arg_start := start_of (done_callback c);
             arg_loader := self (this w) |} (emitted w)).
Proof.
  intros Hr. split.
  - revert w Hr.
    apply (reachable_invariant (fun w => logged w = flat_map log_entry (completed w))).
    + reflexivity.
    + intros a w w' IH H. apply step_logged in H.
      destruct a; try (destruct H as [-> ->]; exact IH).
      destruct H as (r & cb & data' & -> & ->).
      rewrite flat_map_app, IH. cbn [flat_map]. now rewrite app_nil_r.
  - intros c Hin p e Hreq Herr.
    pose proof (reachable_staged w Hr _ (completed_issued c w Hin)) as Hst.
    rewrite Hreq in Hst. unfold stage_ok in Hst.
    destruct Hst as (f & s & Hcb & _).
    split; [unfold log_entry; now rewrite Hcb|].
    rewrite (reachable_events w Hr). apply in_map_iff. exists c. split.
    + unfold event_of. now rewrite Herr.
    + apply filter_In. split; [exact Hin|].
      unfold ends_operation. now rewrite Hcb.
Qed.

Lemma log_is_failed_calls_witness :
  logged example_read_failed = flat_map log_entry (completed example_read_failed).
Proof.
  apply (log_is_failed_calls example_read_failed).
  exists example_options, 42, 7%nat, 1000,
    [Tick 5; Insert [JString "x"]; Completes 0 (Some "ENOENT") None].
  vm_compute. reflexivity.
Defined.

(** ** What is uploaded *)

Lemma read_success_step (id : nat) (p f : string) (s : Z) (data : payload)
  (w w' : World) :
  lookup_request id (pending w) = Some (ReadFile p, Bind_sendToS3 f s) ->
  step (Completes id None data) w = Some w' ->
  completed w' = (completed w ++
    [{| done_request := ReadFile p; done_callback := Bind_sendToS3 f s;
        done_err := None; done_data := data |}])%list /\
  pending w' = (remove_request id (pending w) ++
    [(next_request w,
      (PutObject data f (_awsBucketName (this w)), Bind_onSentToS3 f s))])%list.
Proof.
  intros Hl H. unfold step in H. rewrite Hl in H. cbn [settle invoke] in H.
  injection H as <-. branches. split; reflexivity.
Qed.

Lemma step_uploads_faithful (a : action) (w w' : World) :
  staged w -> uploads_faithful w -> step a w = Some w' -> uploads_faithful w'.
Proof.
  intros Hst Hw H body key bucket cb Hin.
  pose proof (step_same_config _ _ _ H) as Hc.
  pose proof (step_completed_incl _ _ _ H) as Hi.
  pose proof Hc as (_ & _ & _ & _ & _ & Hlogs & _ & _ & Hb & _).
  assert (Hold : In (PutObject body key bucket, cb) (issued w) ->
                 bucket = _awsBucketName (this w') /\
                 exists s,
                   cb = Bind_onSentToS3 key s /\
                   In {| done_request := ReadFile (path_join (_pathToLogs (this w')) key);
                         done_callback := Bind_sendToS3 key s;
                         done_err := None; done_data := body |} (completed w')).
  { intros Ho. destruct (Hw _ _ _ _ Ho) as (-> & s & -> & Hd).
    rewrite Hb, Hlogs. split; [reflexivity|]. exists s. split; [reflexivity|].
    now apply Hi. }
  destruct a as [row| | |dt|h|id err data];
    try (destruct (step_issued _ _ _ _ H Hin) as [Ho|Hn];
         [now apply Hold | unfold fresh_request in Hn; try contradiction;
                           discriminate Hn]).
  destruct (lookup_request id (pending w)) as [[r cb0]|] eqn:Hl;
    [|unfold step in H; rewrite Hl in H; discriminate H].
  pose proof (Hst _ (pending_issued _ _ _ Hl)) as Hrc.
  destruct cb0 as [f s|f s|s|s], err as [e|];
    try (destruct (step_issued _ _ _ _ H Hin) as [Ho|Hn];
         [now apply Hold
         | unfold fresh_request in Hn; rewrite Hl in Hn; try contradiction;
           destruct Hn as [Hn|Hn]; discriminate Hn]).
  (* the read has succeeded: the upload takes what was read *)
  destruct r as [p|? ? ?|p|q]; unfold stage_ok in Hrc;
    try (destruct Hrc as (? & Heq & _); discriminate Heq);
    try (destruct Hrc as (? & ? & Heq & _); discriminate Heq).
  destruct Hrc as (f' & s' & Heq & ->). injection Heq as <- <-.
  destruct (read_success_step _ _ _ _ _ _ _ Hl H) as (Hdone & Hpend).
  unfold issued in Hin. rewrite Hpend, Hdone, !map_app in Hin.
  cbn [map snd done_request done_callback] in Hin.
  rewrite !in_app_iff in Hin. cbn [In] in Hin.
  destruct Hin as [[Hin|[Hin|[]]]|[Hin|[Hin|[]]]].
  - apply Hold. unfold issued. apply in_or_app. left.
    now apply remove_request_incl in Hin.
  - injection Hin as <- <- <- <-. rewrite Hb, Hlogs.
    split; [reflexivity|]. exists s. split; [reflexivity|].
    rewrite Hdone. apply in_or_app. right. now left.
  - apply Hold. unfold issued. apply in_or_app. now right.
  - discriminate Hin.
Qed.

(** X8: every upload the loader issues carries, as its body, exactly the
    content that a successful read of the rotated file returned, under
    the name of that file as the key, into the configured bucket; no
    upload is issued for a file whose read has not succeeded. *)
Theorem upload_is_what_was_read (w : World) (body : payload)
  (key bucket : string) (cb : callback) :
  reachable w ->
  In (PutObject body key bucket, cb) (issued w) ->
  bucket = _awsBucketName (this w) /\
  exists s,
    cb = Bind_onSentToS3 key s /\
    In {| done_request := ReadFile (path_join (_pathToLogs (this w)) key);
          done_callback := Bind_sendToS3 key s;
          done_err := None; done_data := body |} (completed w).
Proof.
  intros Hr.
  assert (H : staged w /\ uploads_faithful w).
  { revert w Hr.
    apply (reachable_invariant (fun w => staged w /\ uploads_faithful w)).
    - intros. split; intros x; intros; contradiction.
    - intros a w w' [Hs Hu] H. split.
      + eapply step_staged; eassumption.
      + eapply step_uploads_faithful; eassumption. }
  destruct H as [_ H]. apply H.
Qed.

Lemma upload_is_what_was_read_witness :
  "bk" = _awsBucketName (this example_read_ok) /\
  exists s,
    Bind_onSentToS3 "t_1000_42.log" 1005 = Bind_onSentToS3 "t_1000_42.log" s /\
    In {| done_request := ReadFile (path_join (_pathToLogs (this example_read_ok))
                                      "t_1000_42.log");
          done_callback := Bind_sendToS3 "t_1000_42.log" s;
          done_err := None; done_data := Some ("x" ++ NEWLINE)%string |}
       (completed example_read_ok).
Proof.
  apply (upload_is_what_was_read example_read_ok (Some ("x" ++ NEWLINE)%string)
           "t_1000_42.log" "bk" (Bind_onSentToS3 "t_1000_42.log" 1005)).
  - exists example_options, 42, 7%nat, 1000,
      [Tick 5; Insert [JString "x"]; Completes 0 None (Some ("x" ++ NEWLINE)%string)].
    vm_compute. reflexivity.
  - vm_compute. left. reflexivity.
Defined.

(** ** Closing *)

Lemma step_passive_quiet (a : action) (w w' : World) :
  timers w = [] -> passive a = true -> step a w = Some w' ->
  timers w' = [] /\
  _numberOfEventsInFile (this w') = _numberOfEventsInFile (this w) /\
  _fileName (this w') = _fileName (this w) /\
  writes w' = writes w /\
  ended w' = ended w /\
  (forall p cb, In (ReadFile p, cb) (issued w') -> In (ReadFile p, cb) (issued w)).
Proof.
  intros Ht Ha H.
  assert (Hreads : forall p cb, In (ReadFile p, cb) (issued w') ->
                                In (ReadFile p, cb) (issued w)).
  { intros p cb Hin. destruct (step_issued _ _ _ _ H Hin) as [Ho|Hn]; [exact Ho|].
    unfold fresh_request in Hn.
    destruct a as [row| | |dt|h|id err data]; try discriminate Ha;
      try contradiction.
    - unfold step in H. rewrite Ht in H. discriminate H.
    - destruct (lookup_request id (pending w)) as [[r [f s|f s|s|s]]|];
        destruct err; try contradiction.
      + destruct Hn as [body Hn]. discriminate Hn.
      + destruct Hn as [Hn|Hn]; discriminate Hn. }
  repeat (split; [|try exact Hreads]); try exact Hreads;
    clear Hreads; revert H;
    (destruct a as [row| | |dt|h|id err data]; try discriminate Ha;
     unfold step;
     [ intros H
     | rewrite Ht; discriminate
     | destruct (lookup_request id (pending w)) as [[r cb]|]; [|discriminate];
       destruct r, err, cb; cbn [settle invoke]; intros H ];
     injection H as <-; branches; solve [exact Ht | reflexivity]).
Qed.

Lemma run_passive_quiet (acts : list action) (w w' : World) :
  timers w = [] -> forallb passive acts = true -> run acts w = Some w' ->
  timers w' = [] /\
  _numberOfEventsInFile (this w') = _numberOfEventsInFile (this w) /\
  _fileName (this w') = _fileName (this w) /\
  writes w' = writes w /\
  ended w' = ended w /\
  (forall p cb, In (ReadFile p, cb) (issued w') -> In (ReadFile p, cb) (issued w)).
Proof.
  revert w. induction acts as [|a acts IH]; intros w Ht Ha H; cbn [run] in H.
  - injection H as <-. repeat split; auto.
  - cbn [forallb] in Ha. apply andb_prop in Ha. destruct Ha as [Ha Hacts].
    destruct (step a w) as [w1|] eqn:Hs; [|discriminate H].
    destruct (step_passive_quiet a w w1 Ht Ha Hs) as (T1 & N1 & F1 & W1 & E1 & R1).
    destruct (IH w1 T1 Hacts H) as (T2 & N2 & F2 & W2 & E2 & R2).
    repeat split; try congruence. auto.
Qed.

(** X9: [close] does not flush.  On a loader whose [flush] was never
    called directly, [close] leaves no idle timer pending, ends the
    writer and touches neither the buffered row count nor the calls in
    flight; afterwards no timer can fire, and whatever completions and
    clock movements follow, no rotation happens: the rows buffered at
    the time of [close] stay counted in the current file, and no read of
    any further file is ever issued. *)
Theorem close_does_not_flush (options : Options) (pid : Z) (id : nat)
  (clock : Z) (before after : list action) (w w_end : World) :
  forallb own_trigger before = true ->
  run before (RedshiftBulkInsert options pid id clock) = Some w ->
  forallb passive after = true ->
  run after (exec close w) = Some w_end ->
  timers (exec close w) = [] /\
  ended (exec close w) = true /\
  pending (exec close w) = pending w /\
  activeFlushOps (this (exec close w)) = activeFlushOps (this w) /\
  (forall h, step (TimerFires h) (exec close w) = None) /\
  timers w_end = [] /\
  _numberOfEventsInFile (this w_end) = _numberOfEventsInFile (this w) /\
  _fileName (this w_end) = _fileName (this w) /\
  (forall p cb, In (ReadFile p, cb) (issued w_end) -> In (ReadFile p, cb) (issued w)).
Proof.
  intros Hb Hrun Ha Hafter.
  assert (H1 : one_timer w).
  { eapply run_one_timer; [exact Hb| |exact Hrun]. right. reflexivity. }
  assert (Ht : timers (exec close w) = []).
  { run_body. destruct H1 as [-> | ->]; [reflexivity|].
    cbn [remove_handle filter]. now rewrite Nat.eqb_refl. }
  destruct (run_passive_quiet after _ _ Ht Ha Hafter) as (T & N & F & _ & _ & R).
  repeat split; try assumption; try reflexivity.
  intros h. unfold step. now rewrite Ht.
Qed.

Lemma close_does_not_flush_witness :
  timers (exec close two_buffered) = [] /\
  ended (exec close two_buffered) = true /\
  pending (exec close two_buffered) = pending two_buffered /\
  activeFlushOps (this (exec close two_buffered)) = activeFlushOps (this two_buffered) /\
  (forall h, step (TimerFires h) (exec close two_buffered) = None) /\
  timers (with_now (now (exec close two_buffered) + 60000) (exec close two_buffered)) = [] /\
  _numberOfEventsInFile
    (this (with_now (now (exec close two_buffered) + 60000) (exec close two_buffered)))
  = _numberOfEventsInFile (this two_buffered) /\
  _fileName (this (with_now (now (exec close two_buffered) + 60000)
                     (exec close two_buffered)))
  = _fileName (this two_buffered) /\
  (forall p cb,
     In (ReadFile p, cb)
        (issued (with_now (now (exec close two_buffered) + 60000)
                   (exec close two_buffered))) ->
     In (ReadFile p, cb) (issued two_buffered)).
Proof.
  apply (close_does_not_flush three_options 42 7%nat 1000
           [Insert [JString "x"]; Insert [JString "y"]] [Tick 60000]).
  - reflexivity.
  - vm_compute. reflexivity.
  - reflexivity.
  - vm_compute. reflexivity.
Defined.

(** ** When a rotation happens *)

(** X12: a rotation happens exactly when an insert brings the row count
    to the threshold or above, or when [flush] runs, from a direct call
    or from an idle timer, while at least one row is buffered; a
    completion, a clock movement or [close] never rotates, and neither
    does a flush of an empty buffer. *)
Theorem rotation_iff (a : action) (w w' : World) :
  reachable w -> step a w = Some w' ->
  (rotation w w' <-> rotates a w) /\
  (~ rotates a w ->
   _fileName (this w') = _fileName (this w) /\
   activeFlushOps (this w') <= activeFlushOps (this w)).
Proof.
  intros Hr H. pose proof (reachable_count_nonneg w Hr) as Hn.
  assert (Hno : ~ rotates a w ->
                _fileName (this w') = _fileName (this w) /\
                activeFlushOps (this w') <= activeFlushOps (this w)).
  { unfold rotates. intros Hnot. revert Hnot.
    step_cases H; branches; bool_facts; intros Hnot;
      solve [split; [reflexivity | lia] | exfalso; apply Hnot; lia]. }
  split; [|exact Hno]. split.
  - intros (_ & _ & _ & Ha & _).
    destruct a as [row| | |dt|h|id err data]; unfold rotates.
    + destruct (Z_le_gt_dec (_threshold (this w)) (_numberOfEventsInFile (this w) + 1));
        [assumption|].
      exfalso. destruct Hno as [_ Hle]; [unfold rotates; lia|]. lia.
    + destruct (Z_lt_le_dec 0 (_numberOfEventsInFile (this w))); [assumption|].
      exfalso. destruct Hno as [_ Hle]; [unfold rotates; lia|]. lia.
    + destruct Hno as [_ Hle]; [unfold rotates; tauto|]. lia.
    + destruct Hno as [_ Hle]; [unfold rotates; tauto|]. lia.
    + destruct (Z_lt_le_dec 0 (_numberOfEventsInFile (this w))); [assumption|].
      exfalso. destruct Hno as [_ Hle]; [unfold rotates; lia|]. lia.
    + destruct Hno as [_ Hle]; [unfold rotates; tauto|]. lia.
  - unfold rotates, rotation. revert Hn.
    step_cases H; branches; bool_facts; intros Hn0 Hrot;
      solve [repeat split | exfalso; lia | contradiction].
Qed.

Lemma rotation_iff_witness :
  (rotation example_started example_one_row
   <-> rotates (Insert [JString "x"]) example_started) /\
  (~ rotates (Insert [JString "x"]) example_started ->
   _fileName (this example_one_row) = _fileName (this example_started) /\
   activeFlushOps (this example_one_row) <= activeFlushOps (this example_started)).
Proof.
  apply (rotation_iff (Insert [JString "x"]) example_started example_one_row).
  - exists example_options, 42, 7%nat, 1000, [Tick 5]. vm_compute. reflexivity.
  - vm_compute. reflexivity.
Defined.

(** ** The number of pending idle timers *)

Lemma remove_handle_length (h : nat) (ts : list nat) :
  NoDup ts ->
  (List.length (remove_handle h ts) + (if existsb (Nat.eqb h) ts then 1 else 0)
   = List.length ts)%nat.
Proof.
  induction ts as [|t ts IH]; intros Hnd; [reflexivity|].
  inversion Hnd as [|? ? Hni Hnd']; subst.
  cbn [remove_handle filter existsb]. fold (remove_handle h ts).
  rewrite (Nat.eqb_sym h t).
  destruct (Nat.eqb t h) eqn:E; cbn [negb orb List.length].
  - apply Nat.eqb_eq in E. subst t.
    replace (existsb (Nat.eqb h) ts) with false in IH.
    + specialize (IH Hnd'). lia.
    + symmetry. apply not_true_is_false. intros Hex.
      apply existsb_exists in Hex. destruct Hex as (x & Hin & Hx).
      apply Nat.eqb_eq in Hx. now subst x.
  - specialize (IH Hnd'). lia.
Qed.

Lemma NoDup_fresh_handle (n : nat) (ts : list nat) :
  Forall (fun h => (h < n)%nat) ts -> NoDup ts -> NoDup (ts ++ [n]).
Proof.
  intros Hf Hnd. apply NoDup_app; [exact Hnd | repeat constructor; intros [] |].
  intros i Hin [<-|[]]. rewrite Forall_forall in Hf. apply Hf in Hin. lia.
Qed.

Lemma step_timers_unique (a : action) (w w' : World) :
  handles_fresh w -> timers_unique w -> step a w = Some w' -> timers_unique w'.
Proof.
  unfold handles_fresh, timers_unique, remove_handle. intros [_ Hf] Hnd H.
  assert (Hrm : forall h, NoDup (filter (fun t => negb (Nat.eqb t h)) (timers w)))
    by (intros h; now apply NoDup_filter).
  assert (Hfr : forall h, Forall (fun t => (t < next_handle w)%nat)
                            (filter (fun t => negb (Nat.eqb t h)) (timers w))).
  { intros h. apply Forall_forall. intros t Hin. apply filter_In in Hin.
    rewrite Forall_forall in Hf. now apply Hf. }
  step_cases H; branches;
    solve [ assumption | apply Hrm
          | apply NoDup_fresh_handle; solve [assumption | apply Hrm | apply Hfr] ].
Qed.

Lemma reachable_timers_unique (w : World) : reachable w -> timers_unique w.
Proof.
  intros Hr.
  assert (H : handles_fresh w /\ timers_unique w); [|tauto].
  revert w Hr.
  apply (reachable_invariant (fun w => handles_fresh w /\ timers_unique w)).
  - intros. split; [split; [cbn; lia | repeat constructor]|].
    unfold timers_unique. cbn. repeat constructor. intros [].
  - intros a w w' [Hf Hu] H. split.
    + eapply step_handles_fresh; eassumption.
    + eapply step_timers_unique; eassumption.
Qed.

(** X13: how the number of pending idle timers moves.  A direct call of
    [flush] always adds one; a timer that fires is replaced one for one;
    a completion or a clock movement changes nothing; an insert never
    lowers the number; only [close] lowers it, and by at most one, since
    it cancels only the timer whose handle is in [ref].  So a timer added
    by a direct [flush] is never taken back by the loader's own
    operation, and one of two pending timers survives [close]. *)
Theorem pending_timers_count (a : action) (w w' : World) :
  reachable w -> step a w = Some w' ->
  match a with
  | CallFlush => List.length (timers w') = S (List.length (timers w))
  | TimerFires _ | Tick _ | Completes _ _ _ =>
      List.length (timers w') = List.length (timers w)
  | Insert _ =>
      (List.length (timers w) <= List.length (timers w') <= S (List.length (timers w)))%nat
  | Close => (List.length (timers w) <= S (List.length (timers w')))%nat
  end.
Proof.
  intros Hr H. pose proof (reachable_timers_unique w Hr) as Hnd.
  pose proof (fun h => remove_handle_length h (timers w) Hnd) as Hlen.
  destruct a as [row| | |dt|h|id err data]; unfold step in H.
  - injection H as <-. specialize (Hlen (ref (this w))).
    destruct (existsb (Nat.eqb (ref (this w))) (timers w));
      branches; rewrite ?length_app; cbn [List.length]; lia.
  - injection H as <-. branches; rewrite ?length_app; cbn [List.length]; lia.
  - injection H as <-. specialize (Hlen (ref (this w))).
    destruct (existsb (Nat.eqb (ref (this w))) (timers w)); branches; lia.
  - injection H as <-. reflexivity.
  - specialize (Hlen h).
    destruct (existsb (Nat.eqb h) (timers w)); [|discriminate H].
    injection H as <-. branches; rewrite ?length_app; cbn [List.length]; lia.
  - destruct (lookup_request id (pending w)) as [[r cb]|]; [|discriminate H].
    destruct r, err, cb; cbn [settle invoke] in H; injection H as <-;
      branches; reflexivity.
Qed.

Lemma pending_timers_count_witness :
  List.length (timers (exec flush example_loader))
  = S (List.length (timers example_loader)).
Proof.
  apply (pending_timers_count CallFlush example_loader (exec flush example_loader)).
  - exists example_options, 42, 7%nat, 1000, []. vm_compute. reflexivity.
  - vm_compute. reflexivity.
Defined.

(** ** The load command and its key *)

(** X11: for one loader the load command determines the key: two file
    names give the same command only if they are the same name. *)
Theorem copy_query_names_one_key (w : World) (f1 f2 : string) :
  fst (_getCopyQuery f1 w) = fst (_getCopyQuery f2 w) <-> f1 = f2.
Proof.
  split; [|now intros ->].
  rewrite !_getCopyQuery_spaced. unfold copy_command_spaced. intros H.
  do 7 apply append_cancel_l in H.
  now apply append_cancel_r in H.
Qed.
